(** * dgraph [ee/backup/run.go]: the restore command

    A shallow embedding of [ee/backup/run.go] (the [restore] sub-command of
    Dgraph EE) together with the parts of the restore pipeline that the
    file calls but does not contain.

    - Taken from the source: the option block built for every badger
      instance, the destination directory [filepath.Join(pdir, "p%d")],
      the open / load / deferred-close sequence of the callback handed to
      [Load], the elapsed-time message of [run] and the exit path of
      [Restore.Cmd.Run].
    - Outside the file: [Load] itself (object naming grammar, catalog,
      planner, iteration over groups).  These are modelled from the
      written specification and every such definition says so.
    - External libraries: badger (storage engine), the Go standard
      library ([fmt], [path/filepath], [time], [os]).  Badger, the
      location resolver and the clock are an interface
      ([Collaborators]); [filepath.Join] and [%d] are modelled after
      their documented Unix behaviour.

    Integers: [since] is a [uint64] and [groupId] an [int] in the source.
    No arithmetic is ever performed on them (they are only compared and
    printed), so they are represented by [N] and [Z] without wrap-around. *)

From stdpp Require Import gmap strings list pretty sorting.
From Stdlib Require Import Ascii String.

Local Open Scope string_scope.
Local Open Scope N_scope.

(* ================================================================== *)
(** * Part I: definitions *)
(* ================================================================== *)

(** ** Go standard library: text *)

(** The line feed that [fmt.Println] appends and that ["\n"] denotes. *)
Definition nl : string := String (ascii_of_nat 10) EmptyString.

(** [fmt.Sprintf("p%d", groupId)]: [%d] prints a signed decimal without
    padding, which is what stdpp's [pretty] on [Z] produces. *)
Definition Sprintf_p (groupId : Z) : string := "p" +:+ pretty groupId.

(** ** Go standard library: [path/filepath] on Unix *)

Definition is_sep (c : ascii) : bool := Ascii.eqb c "/".

(** The elements of a path: the runs of bytes between separators, in
    the order in which the loop of [filepath.Clean] meets them. *)
Fixpoint path_elems (s : string) : list string :=
  match s with
  | EmptyString => [EmptyString]
  | String c s' =>
      if is_sep c then EmptyString :: path_elems s'
      else match path_elems s' with
           | e :: es => String c e :: es
           | [] => [String c EmptyString]
           end
  end.

(** The element loop of [filepath.Clean].  [out] is the output buffer as
    a stack of elements, last written first.  Empty elements and ["."]
    are dropped; [".."] removes the last real element, is dropped at the
    root, and is kept in front of a relative path. *)
Fixpoint clean_elems (rooted : bool) (out : list string) (elems : list string)
  : list string :=
  match elems with
  | [] => out
  | e :: rest =>
      if decide (e = "" ∨ e = ".") then clean_elems rooted out rest
      else if decide (e = "..") then
        match out with
        | top :: out' =>
            if decide (top = "..") then clean_elems rooted (".." :: out) rest
            else clean_elems rooted out' rest
        | [] =>
            if rooted then clean_elems rooted [] rest
            else clean_elems rooted [".."] rest
        end
      else clean_elems rooted (e :: out) rest
  end.

Fixpoint join_elems (elems : list string) : string :=
  match elems with
  | [] => ""
  | [e] => e
  | e :: rest => e +:+ "/" +:+ join_elems rest
  end.

Definition is_rooted (path : string) : bool :=
  match path with
  | String c _ => is_sep c
  | EmptyString => false
  end.

(** [filepath.Clean]. *)
Definition filepath_Clean (path : string) : string :=
  if decide (path = "") then "."
  else
    let rooted := is_rooted path in
    let out := rev (clean_elems rooted [] (path_elems path)) in
    if rooted then "/" +:+ join_elems out
    else match out with
         | [] => "."
         | _ => join_elems out
         end.

(** [filepath.Join(a, b)]: empty elements are ignored, the rest is joined
    with the separator and cleaned. *)
Definition filepath_Join (a b : string) : string :=
  if decide (a = "") then (if decide (b = "") then "" else filepath_Clean b)
  else filepath_Clean (a +:+ "/" +:+ b).

(** A path element without separator. *)
Fixpoint no_sep (s : string) : bool :=
  match s with
  | EmptyString => true
  | String c s' => negb (is_sep c) && no_sep s'
  end.

(** An ordinary file name: no separator, not empty, not ["."] or [".."]. *)
Definition plain_elem (n : string) : Prop :=
  no_sep n = true ∧ n ≠ "" ∧ n ≠ "." ∧ n ≠ "..".

(** Every element followed by a separator. *)
Fixpoint dir_prefix (elems : list string) : string :=
  match elems with
  | [] => ""
  | e :: rest => e +:+ "/" +:+ dir_prefix rest
  end.

(** What [filepath.Join d n] puts in front of an ordinary name [n]. *)
Definition join_base (d : string) : string :=
  if decide (d = "") then ""
  else (if is_rooted d then "/" else "")
       +:+ dir_prefix (rev (clean_elems (is_rooted d) [] (path_elems d))).

(** [k] times the element [".."]. *)
Definition dots (k : nat) : list string := replicate k "..".

(** The shape of the output buffer of [filepath.Clean], last written
    element first: ordinary names on top of a run of [".."], and no
    [".."] at all under the root. *)
Definition clean_stack (rooted : bool) (st : list string) : Prop :=
  ∃ reals k, st = (reals ++ dots k)%list ∧ Forall plain_elem reals
             ∧ (rooted = true → k = 0%nat).

(** ** Errors *)

(** Modelled from the spec: the two ways in which the catalog of the
    unseen [Load] is refused. *)
Inductive CatalogFault :=
| NoObjects
| DuplicateObject (groupID timestamp : N).

(** Go's [error] values that can reach [run].  [EngineError] stands for
    an error value produced by badger.  Modelled from the spec: the other
    constructors, which are the error taxonomy of the unseen [Load], and
    [RestoreOutcome], the per-group result collected by the orchestrator
    (the elapsed time of a success is left out). *)
Inductive error :=
| EngineError (msg : string)
| ResolutionError (msg : string)
| CatalogError (fault : CatalogFault)
| DestinationConflictError (groupID : N)
| ReplayError (groupID timestamp : N) (cause : error)
| RestoreFailed (report : list (N * RestoreOutcome))
with RestoreOutcome :=
| Succeeded
| Failed (e : error).

Definition succeeded (o : RestoreOutcome) : bool :=
  match o with Succeeded => true | Failed _ => false end.

(** ** badger: options and the engine contract *)

(** [options.FileLoadingMode]. *)
Inductive FileLoadingMode := FileIO | LoadToRAM | MemoryMap.

(** The fields of [badger.Options] that [runRestore] assigns. *)
Record Options := mkOptions {
  SyncWrites : bool;
  TableLoadingMode : FileLoadingMode;
  ValueThreshold : Z;
  NumVersionsToKeep : Z;
  Dir : string;
  ValueDir : string;
}.

Definition set_SyncWrites (v : bool) (o : Options) : Options :=
  mkOptions v (TableLoadingMode o) (ValueThreshold o) (NumVersionsToKeep o)
            (Dir o) (ValueDir o).
Definition set_TableLoadingMode (v : FileLoadingMode) (o : Options) : Options :=
  mkOptions (SyncWrites o) v (ValueThreshold o) (NumVersionsToKeep o)
            (Dir o) (ValueDir o).
Definition set_ValueThreshold (v : Z) (o : Options) : Options :=
  mkOptions (SyncWrites o) (TableLoadingMode o) v (NumVersionsToKeep o)
            (Dir o) (ValueDir o).
Definition set_NumVersionsToKeep (v : Z) (o : Options) : Options :=
  mkOptions (SyncWrites o) (TableLoadingMode o) (ValueThreshold o) v
            (Dir o) (ValueDir o).
Definition set_Dir (v : string) (o : Options) : Options :=
  mkOptions (SyncWrites o) (TableLoadingMode o) (ValueThreshold o)
            (NumVersionsToKeep o) v (ValueDir o).
Definition set_ValueDir (v : string) (o : Options) : Options :=
  mkOptions (SyncWrites o) (TableLoadingMode o) (ValueThreshold o)
            (NumVersionsToKeep o) (Dir o) v.

(** The directory of a group under the posting directory [pdir]:
    [filepath.Join(pdir, fmt.Sprintf("p%d", groupId))]. *)
Definition group_dir (pdir : string) (groupId : Z) : string :=
  filepath_Join pdir (Sprintf_p groupId).

(** [math.MaxInt32]. *)
Definition MaxInt32 : Z := 2147483647.

(** Result of opening a directory: the store it now holds, or badger's
    error together with whatever is left in the directory. *)
Inductive OpenResult (Store : Type) :=
| Opened (st : Store)
| OpenFailed (msg : string) (left_behind : option Store).
Arguments Opened {Store} st.
Arguments OpenFailed {Store} msg left_behind.

(** What happens around the process while it runs. *)
Inductive Event :=
| EvOpen (bo : Options) (ok : bool)
| EvLoad (dir : string) (ok : bool)
| EvClose (dir : string).

(** The directory an event is about. *)
Definition event_dir (e : Event) : string :=
  match e with
  | EvOpen bo _ => Dir bo
  | EvLoad dir _ => dir
  | EvClose dir => dir
  end.

(** The collaborators of the restore core.  The storage engine, badger:
    its default options, what opening a directory in a given state
    yields, what a bulk load makes of a store and a stream, what closing
    leaves.  The location resolver: the objects of a location with their
    content, or an error message.  The wall clock, of which only the text
    of [time.Since(start).Round(time.Second)] matters.  [Stream] is the
    content behind an [io.Reader], [Store] the state of a badger
    directory. *)
Class Collaborators (Stream Store : Type) := {
  DefaultOptions : Options;
  open_store : Options → option Store → OpenResult Store;
  load_stream : Store → Stream → Store * option string;
  close_store : Store → Store;
  resolve : string → string + list (string * Stream);
  elapsed_text : list Event → string;
}.

(** ** The process state and its monad *)

Record World (Store : Type) := mkWorld {
  disk : gmap string Store;   (* directories holding a store *)
  open_dbs : list string;     (* instances opened and not yet closed *)
  events : list Event;        (* engine calls, oldest first *)
  stdout : list string;       (* one entry per write *)
  stderr : list error;        (* error values printed with Fprintln *)
}.
Arguments mkWorld {Store}.
Arguments disk {Store}.
Arguments open_dbs {Store}.
Arguments events {Store}.
Arguments stdout {Store}.
Arguments stderr {Store}.

(** The engine calls made between two states of one run. *)
Definition new_events {Store} (w w' : World Store) : list Event :=
  drop (List.length (events w)) (events w').

(** The lines written to standard output between two states of one run. *)
Definition new_stdout {Store} (w w' : World Store) : list string :=
  drop (List.length (stdout w)) (stdout w').

Definition M (Store A : Type) : Type := World Store → A * World Store.

Definition ret {Store A} (a : A) : M Store A := λ w, (a, w).
Definition bind {Store A B} (m : M Store A) (k : A → M Store B) : M Store B :=
  λ w, let (a, w') := m w in k a w'.

Declare Scope go_scope.
Delimit Scope go_scope with go.
Notation "x <- m ;; k" := (bind m (λ x, k))
  (at level 100, m at next level, right associativity) : go_scope.
Notation "m ;;; k" := (bind m (λ _, k))
  (at level 100, right associativity) : go_scope.

(** Removes the first occurrence of a handle. *)
Fixpoint release (dir : string) (l : list string) : list string :=
  match l with
  | [] => []
  | d :: l' => if decide (d = dir) then l' else d :: release dir l'
  end.

(** The global [opt] of the command line. *)
Record opt := mkOpt { location : string; pdir : string; since : N }.

(** How the command ends: a normal return, or the process exits with a
    status ([os.Exit(1)], or 2 when the Go runtime ends it on a panic). *)
Inductive ExitStatus := Returned | Exited (code : Z).

(** How a call ends: it returns a value, or it panics with a value. *)
Inductive Completion (A : Type) :=
| Returns (a : A)
| Panics (value : string).
Arguments Returns {A} a.
Arguments Panics {A} value.

Section Process.
Context {Stream Store : Type} `{!Collaborators Stream Store}.
Local Open Scope go_scope.

Local Abbreviation Go := (M Store).

(** [fmt.Printf] / [fmt.Println] to standard output. *)
Definition Print (line : string) : Go unit := λ w,
  (tt, mkWorld (disk w) (open_dbs w) (events w) (stdout w ++ [line]) (stderr w)).

(** [fmt.Fprintln(os.Stderr, err)]. *)
Definition Fprintln_Stderr (err : error) : Go unit := λ w,
  (tt, mkWorld (disk w) (open_dbs w) (events w) (stdout w) (stderr w ++ [err])).

(** [badger.OpenManaged(bo)].  The handle is the directory. *)
Definition OpenManaged (bo : Options) : Go (error + string) := λ w,
  match open_store bo (disk w !! Dir bo) with
  | Opened st =>
      (inr (Dir bo),
       mkWorld (<[Dir bo := st]> (disk w)) (Dir bo :: open_dbs w)
               (events w ++ [EvOpen bo true]) (stdout w) (stderr w))
  | OpenFailed msg left_behind =>
      (inl (EngineError msg),
       mkWorld (match left_behind with
                | Some st => <[Dir bo := st]> (disk w)
                | None => delete (Dir bo) (disk w)
                end)
               (open_dbs w) (events w ++ [EvOpen bo false])
               (stdout w) (stderr w))
  end.

(** [db.Load(r)]. *)
Definition db_Load (db : string) (r : Stream) : Go (option error) := λ w,
  match disk w !! db with
  | Some st =>
      let (st', res) := load_stream st r in
      (EngineError <$> res,
       mkWorld (<[db := st']> (disk w)) (open_dbs w)
               (events w ++ [EvLoad db (bool_decide (res = None))])
               (stdout w) (stderr w))
  | None => (Some (EngineError "no such instance"), w)
  end.

(** [db.Close()]; its error is dropped by the [defer]. *)
Definition db_Close (db : string) : Go unit := λ w,
  (tt, mkWorld (alter close_store db (disk w)) (release db (open_dbs w))
               (events w ++ [EvClose db]) (stdout w) (stderr w)).

(** *** [runRestore] *)

(** The options of lines 124-130. *)
Definition restoreOptions (pdir : string) (groupId : Z) : Options :=
  let bo := DefaultOptions in
  let bo := set_SyncWrites true bo in
  let bo := set_TableLoadingMode MemoryMap bo in
  let bo := set_ValueThreshold (Z.shiftl 1 10) bo in
  let bo := set_NumVersionsToKeep MaxInt32 bo in
  let bo := set_Dir (filepath_Join pdir (Sprintf_p groupId)) bo in
  let bo := set_ValueDir (Dir bo) bo in
  bo.

(** The function literal of lines 122-138, called by [Load] once per
    backup object. *)
Definition runRestore_func1 (pdir : string) (since : N)
    (r : Stream) (groupId : Z) : Go (option error) :=
  Print ("--- Restoring groupId: " +:+ pretty groupId +:+ ", since: "
         +:+ pretty since +:+ nl) ;;;
  let bo := restoreOptions pdir groupId in
  res <- OpenManaged bo ;;
  match res with
  | inl err => ret (Some err)
  | inr db =>
      Print ("--- Creating new db: " +:+ Dir bo +:+ nl) ;;;
      err <- db_Load db r ;;
      db_Close db ;;;            (* deferred *)
      ret err
  end.

(** The type of a [Load] that always returns: location, watermark,
    callback. *)
Definition LoadFn : Type :=
  string → N → (Stream → Z → Go (option error)) → Go (option error).

(** A call of [Load] as [run] meets it: it returns an error or nil, or it
    panics (in the engine, in the callback's collaborators, anywhere
    below). *)
Definition LoadCall : Type :=
  string → N → (Stream → Z → Go (option error)) → Go (Completion (option error)).

(** A [Load] that always returns, seen as a call that may panic. *)
Definition returning (Load : LoadFn) : LoadCall := λ location since fn,
  err <- Load location since fn ;; ret (Returns err).

(** [runRestore] is [return Load(...)]: it ends as [Load] ends. *)
Definition runRestore {R : Type}
    (Load : string → N → (Stream → Z → Go (option error)) → R)
    (pdir location : string) (since : N) : R :=
  Load location since (runRestore_func1 pdir since).

(** *** [run] and [Restore.Cmd.Run] *)

Definition elapsed_prefix : string := "Restore: Time elapsed: ".

(** A line of output that reports the elapsed time. *)
Definition is_elapsed_line (line : string) : bool :=
  String.prefix elapsed_prefix line.

(** The body of [run] up to its [return], or up to the panic that ends
    it. *)
Definition run_body (Load : LoadCall) (o : opt)
  : Go (Completion (option error)) :=
  Print ("Restoring backups from: " +:+ location o +:+ nl) ;;;
  Print ("Writing postings to: " +:+ pdir o +:+ nl) ;;;
  runRestore Load (pdir o) (location o) (since o).

(** The deferred function of [run]: it sees the named result [err] and
    prints the elapsed time when [err] is nil. *)
Definition run_deferred (err : option error) : Go unit :=
  match err with
  | None => λ w, Print (elapsed_prefix +:+ elapsed_text (events w) +:+ nl) w
  | Some _ => ret tt
  end.

(** The named result [err] as the deferred function finds it: what the
    body returned, and still nil when the body panicked, since [err] is
    only assigned by the [return]. *)
Definition named_result (c : Completion (option error)) : option error :=
  match c with
  | Returns err => err
  | Panics _ => None
  end.

(** [run]: the body, then the deferred function, which Go also runs
    while a panic unwinds, then the result or the panic goes on to the
    caller. *)
Definition run (Load : LoadCall) (o : opt) : Go (Completion (option error)) :=
  c <- run_body Load o ;;
  run_deferred (named_result c) ;;;
  ret c.

(** The [Run] field of [Restore.Cmd] (the profiling hook is not part of
    the model, nor is the crash report that the runtime writes on a
    panic: [stderr] holds what [Fprintln] printed). *)
Definition Restore_Cmd_Run (Load : LoadCall) (o : opt) : Go ExitStatus :=
  c <- run Load o ;;
  match c with
  | Returns (Some e) => Fprintln_Stderr e ;;; ret (Exited 1)
  | Returns None => ret Returned
  | Panics _ => ret (Exited 2)   (* nothing recovers: the runtime ends the process *)
  end.
End Process.

Section Callers.
Context {Stream Store : Type} `{!Collaborators Stream Store}.
Local Open Scope go_scope.

(** A caller of the callback: it invokes [fn] for every stream and group
    of [calls], one after the other and whatever the results are, and
    pairs each result with its group. *)
Fixpoint invoke_all (fn : Stream → Z → M Store (option error))
    (calls : list (Stream * Z)) : M Store (list (Z * option error)) :=
  match calls with
  | [] => ret []
  | (r, g) :: rest =>
      err <- fn r g ;;
      res <- invoke_all fn rest ;;
      ret ((g, err) :: res)
  end.
End Callers.

(** ** The object naming grammar *)

(** Modelled from the spec: the parser of object names is part of the
    unseen [Load].  The grammar is [r<timestamp>-g<groupID>.<ext>] with
    both numbers base-10 and non-negative; the extension is accepted and
    ignored. *)
Definition digit_of (c : ascii) : option N :=
  let n := N_of_ascii c in
  if (48 <=? n) && (n <=? 57) then Some (n - 48) else None.

(** Modelled from the spec: reads the base-10 digits at the front of
    [s] into [acc] (part of the name parser of the unseen [Load]). *)
Fixpoint read_digits (acc : N) (s : string) : N * string :=
  match s with
  | String c s' =>
      match digit_of c with
      | Some d => read_digits (10 * acc + d) s'
      | None => (acc, s)
      end
  | EmptyString => (acc, s)
  end.

(** Modelled from the spec: a number of the grammar is at least one
    digit (part of the name parser of the unseen [Load]). *)
Definition read_number (s : string) : option (N * string) :=
  match s with
  | String c _ => if digit_of c is Some _ then Some (read_digits 0 s) else None
  | EmptyString => None
  end.

(** Modelled from the spec: strips the literal [lit] of the grammar
    from the front of [s] (part of the name parser of the unseen [Load]). *)
Fixpoint expect (lit s : string) : option string :=
  match lit, s with
  | EmptyString, _ => Some s
  | String a lit', String b s' => if Ascii.eqb a b then expect lit' s' else None
  | String _ _, EmptyString => None
  end.

(** Modelled from the spec: parsing an object name into
    [(timestamp, groupID)]; [None] for a name outside the grammar. *)
Definition parse_name (name : string) : option (N * N) :=
  rest ← expect "r" name;
  '(ts, rest) ← read_number rest;
  rest ← expect "-g" rest;
  '(g, rest) ← read_number rest;
  _ ← expect "." rest;
  Some (ts, g).

(** Modelled from the spec: the canonical name of a pair, in the form of
    the example [r32-g2.backup]. *)
Definition format_name (p : N * N) : string :=
  "r" +:+ pretty p.1 +:+ "-g" +:+ pretty p.2 +:+ ".backup".

(** A string of base-10 digits. *)
Fixpoint all_digits (s : string) : bool :=
  match s with
  | EmptyString => true
  | String c s' => bool_decide (is_Some (digit_of c)) && all_digits s'
  end.

(** Modelled from the spec: the naming grammar of the unseen [Load]
    stated on its own, [r<timestamp>-g<groupID>.<ext>] with two non-empty
    runs of digits and any extension. *)
Definition matches_grammar (name : string) : Prop :=
  ∃ ts g ext : string,
    name = "r" +:+ ts +:+ "-g" +:+ g +:+ "." +:+ ext
    ∧ ts ≠ "" ∧ g ≠ "" ∧ all_digits ts ∧ all_digits g.

(** A decimal numeral without padding: ["0"] itself, or an optional
    minus sign followed by a digit other than zero. *)
Definition unpadded (s : string) : Prop :=
  s = "0"
  ∨ ∃ c r, (s = String c r ∨ s = String "-" (String c r))
           ∧ is_Some (digit_of c) ∧ c ≠ "0"%char.

(** ** Backup catalog, planner and orchestration *)

(** Modelled from the spec: one physical backup artifact. *)
Record BackupObject (Stream : Type) := mkObject {
  groupID : N;
  readTimestamp : N;
  byteStream : Stream;
}.
Arguments mkObject {Stream}.
Arguments groupID {Stream}.
Arguments readTimestamp {Stream}.
Arguments byteStream {Stream}.

Section Catalog.
Context {Stream : Type}.

Local Abbreviation Object := (BackupObject Stream).

(** The pair that identifies an object within a location. *)
Definition object_key (o : Object) : N * N := (groupID o, readTimestamp o).

(** Modelled from the spec: an entry of the listing becomes an object
    when its name is in the grammar. *)
Definition parse_object (entry : string * Stream) : option Object :=
  '(ts, g) ← parse_name entry.1;
  Some (mkObject g ts entry.2).

(** Modelled from the spec: insertion into a group's sequence, kept
    ascending by timestamp; an equal timestamp is refused. *)
Fixpoint insert_by_timestamp (o : Object) (l : list Object)
  : option (list Object) :=
  match l with
  | [] => Some [o]
  | x :: l' =>
      if readTimestamp o <? readTimestamp x then Some (o :: l)
      else if readTimestamp o =? readTimestamp x then None
      else (x ::.) <$> insert_by_timestamp o l'
  end.

(** Modelled from the spec: adding one object to the catalog of the
    unseen [Load]; a second object with the same key is a fault. *)
Definition catalog_add (cat : gmap N (list Object)) (o : Object)
  : CatalogFault + gmap N (list Object) :=
  match insert_by_timestamp o (default [] (cat !! groupID o)) with
  | Some l => inr (<[groupID o := l]> cat)
  | None => inl (DuplicateObject (groupID o) (readTimestamp o))
  end.

(** Modelled from the spec: the catalog of the unseen [Load], built
    from the parsed objects one after the other. *)
Fixpoint catalog_of (objs : list Object) (cat : gmap N (list Object))
  : CatalogFault + gmap N (list Object) :=
  match objs with
  | [] => inr cat
  | o :: rest =>
      match catalog_add cat o with
      | inl fault => inl fault
      | inr cat' => catalog_of rest cat'
      end
  end.

(** Modelled from the spec: [enumerate] of the Backup Catalog, which
    the source only reaches through [Load].  Names outside the grammar
    are skipped; no object at all, or two objects with the same
    [(groupID, timestamp)], is a [CatalogError]. *)
Definition enumerate (listing : list (string * Stream))
  : error + gmap N (list Object) :=
  match omap parse_object listing with
  | [] => inl (CatalogError NoObjects)
  | objs =>
      match catalog_of objs ∅ with
      | inl fault => inl (CatalogError fault)
      | inr cat => inr cat
      end
  end.

(** [o] is one of the objects of the catalog. *)
Definition in_catalog (o : Object) (cat : gmap N (list Object)) : Prop :=
  ∃ l, cat !! groupID o = Some l ∧ o ∈ l.

(** The catalog invariant: every sequence is strictly ascending by
    timestamp and holds objects of its own group only. *)
Definition catalog_ok (cat : gmap N (list Object)) : Prop :=
  ∀ g l, cat !! g = Some l →
    StronglySorted (λ a b, readTimestamp a < readTimestamp b) l
    ∧ Forall (λ x, groupID x = g) l.

(** No two objects of [objs] share a key, and none shares one with an
    object already in [cat]. *)
Definition clash_free (objs : list Object) (cat : gmap N (list Object)) : Prop :=
  NoDup (object_key <$> objs)
  ∧ ∀ o x, o ∈ objs → in_catalog x cat → object_key x ≠ object_key o.

(** Modelled from the spec: the Restore Planner keeps, per group, the
    objects with [timestamp > since]. *)
Definition plan (cat : gmap N (list Object)) (since : N)
  : gmap N (list Object) :=
  filter (λ o, since < readTimestamp o) <$> cat.

(** Modelled from the spec: the groups the orchestrator invokes the
    replay for are those with a non-empty plan. *)
Definition planned_groups (p : gmap N (list Object))
  : list (N * list Object) :=
  filter (λ gl, gl.2 ≠ []) (map_to_list p).

(** [k] is the longest suffix of [l] all of whose elements satisfy [P]. *)
Definition longest_suffix (P : Object → Prop) (k l : list Object) : Prop :=
  k `suffix_of` l ∧ Forall P k
  ∧ ∀ k', k' `suffix_of` l → Forall P k' → (List.length k' ≤ List.length k)%nat.

(** Ascending by timestamp. *)
Definition ascending (l : list Object) : Prop :=
  Sorted (λ a b, readTimestamp a ≤ readTimestamp b) l.
End Catalog.

Section Orchestrator.
Context {Stream Store : Type} `{!Collaborators Stream Store}.
Local Open Scope go_scope.

Local Abbreviation Go := (M Store).

(** Modelled from the spec: the replay of one group.  [Load] calls the
    callback once per object, in order, and stops at the first failure,
    which becomes a [ReplayError] tagged with the group and the failing
    object's timestamp. *)
Fixpoint replay (fn : Stream → Z → Go (option error)) (g : N)
    (objs : list (BackupObject Stream)) : Go RestoreOutcome :=
  match objs with
  | [] => ret Succeeded
  | o :: rest =>
      err <- fn (byteStream o) (Z.of_N g) ;;
      match err with
      | Some e => ret (Failed (ReplayError g (readTimestamp o) e))
      | None => replay fn g rest
      end
  end.

(** Modelled from the spec: the orchestrator replays every planned
    group and collects every outcome. *)
Fixpoint restore_groups (fn : Stream → Z → Go (option error))
    (groups : list (N * list (BackupObject Stream)))
  : Go (list (N * RestoreOutcome)) :=
  match groups with
  | [] => ret []
  | (g, objs) :: rest =>
      out <- replay fn g objs ;;
      report <- restore_groups fn rest ;;
      ret ((g, out) :: report)
  end.

(** Modelled from the spec: [Load], which is called by [runRestore] and
    defined in another file of the package: resolver, catalog, planner,
    then one replay per planned group.  The run succeeds when every
    group did; otherwise the error carries the whole report. *)
Definition Load : LoadFn := λ location since fn,
  match resolve location with
  | inl msg => ret (Some (ResolutionError msg))
  | inr listing =>
      match enumerate listing with
      | inl e => ret (Some e)
      | inr catalog =>
          report <- restore_groups fn (planned_groups (plan catalog since)) ;;
          ret (if forallb (λ go, succeeded go.2) report then None
               else Some (RestoreFailed report))
      end
  end.
End Orchestrator.

(** ** A reference engine and sample data

    A small engine in the shape of badger's contract: opening a directory
    yields the store found there (an empty one when the directory is
    new), a bulk load appends the records of the stream and fails at an
    unreadable record, closing changes nothing. *)

Definition KV : Type := string * N * string.

Fixpoint ref_load (st : list KV) (r : list (option KV)) : list KV * option string :=
  match r with
  | [] => (st, None)
  | Some kv :: r' => ref_load (st ++ [kv]) r'
  | None :: _ => (st, Some "unexpected EOF")
  end.

Definition sample_listing : list (string * list (option KV)) :=
  [ ("r10-g1.backup", [Some ("alice", 7, "a0"); Some ("bob", 9, "b0")]);
    ("manifest.json", []);
    ("r25-g1.backup", [Some ("alice", 21, "a1")]);
    ("r15-g2.backup", [Some ("carol", 12, "c0")]) ].

(** As [sample_listing], with the second object of group 1 cut short. *)
Definition broken_listing : list (string * list (option KV)) :=
  [ ("r10-g1.backup", [Some ("alice", 7, "a0"); Some ("bob", 9, "b0")]);
    ("r25-g1.backup", [Some ("alice", 21, "a1"); None]);
    ("r15-g2.backup", [Some ("carol", 12, "c0")]) ].

#[global] Instance ref_collaborators : Collaborators (list (option KV)) (list KV) := {|
  DefaultOptions := mkOptions true LoadToRAM 32 1 "" "";
  open_store := λ _ st, Opened (default [] st);
  load_stream := ref_load;
  close_store := λ st, st;
  resolve := λ loc,
    if decide (loc = "/var/backups/dgraph") then inr sample_listing
    else if decide (loc = "/var/backups/broken") then inr broken_listing
    else inl "no such location";
  elapsed_text := λ _, "0s";
|}.

(** The catalog of a listing, empty when enumeration fails. *)
Definition catalog_or_empty (listing : list (string * list (option KV)))
  : gmap N (list (BackupObject (list (option KV)))) :=
  match enumerate listing with
  | inr cat => cat
  | inl _ => ∅
  end.

Definition empty_world : World (list KV) := mkWorld ∅ [] [] [] [].

(** A call of [Load] that panics before it restores anything. *)
Definition panicking_load : @LoadCall (list (option KV)) (list KV) :=
  λ _ _ _, ret (Panics "runtime error: invalid memory address or nil pointer dereference").

(** A world in which the directory of group 1 under [/data] is already
    populated. *)
Definition populated_world : World (list KV) :=
  mkWorld {[ "/data/p1" := [("zed", 3, "z0")] ]} [] [] [] [].

(* ================================================================== *)
(** * Part II: lemmas *)
(* ================================================================== *)

(** ** Decimal text *)

Lemma append_assoc (a b c : string) : (a +:+ b) +:+ c = a +:+ (b +:+ c).
Proof.
  induction a as [| x a IH]; [done|].
  change (String x ((a +:+ b) +:+ c) = String x (a +:+ b +:+ c)). by rewrite IH.
Qed.

Lemma digit_of_pretty_char d : d < 10 → digit_of (pretty_N_char d) = Some d.
Proof.
  intros Hd.
  assert (d = 0 ∨ d = 1 ∨ d = 2 ∨ d = 3 ∨ d = 4 ∨ d = 5 ∨ d = 6 ∨ d = 7
          ∨ d = 8 ∨ d = 9) as Hc by lia.
  repeat destruct Hc as [-> | Hc]; try subst d; reflexivity.
Qed.

Lemma pretty_N_go_app x s t : pretty_N_go x s +:+ t = pretty_N_go x (s +:+ t).
Proof.
  revert s. induction (N.lt_wf_0 x) as [x _ IH]. intros s.
  destruct (decide (x = 0)) as [-> | Hx].
  - by rewrite !pretty_N_go_0.
  - rewrite (pretty_N_go_step x s), (pretty_N_go_step x (s +:+ t)) by lia.
    rewrite IH; [reflexivity | apply N.div_lt; lia].
Qed.

(** Reading back the digits that [pretty] wrote in front of [s]. *)
Lemma read_digits_pretty_go x :
  ∀ acc s, ∃ m, read_digits acc (pretty_N_go x s) = read_digits (acc * m + x) s.
Proof.
  induction (N.lt_wf_0 x) as [x _ IH]. intros acc s.
  destruct (decide (x = 0)) as [-> | Hx].
  - exists 1. rewrite pretty_N_go_0. f_equal; lia.
  - rewrite pretty_N_go_step by lia.
    destruct (IH (x `div` 10) ltac:(apply N.div_lt; lia) acc
                (String (pretty_N_char (x `mod` 10)) s)) as (m & ->).
    exists (10 * m). cbn [read_digits].
    rewrite digit_of_pretty_char by (apply N.mod_lt; lia).
    f_equal. pose proof (N.div_mod x 10 ltac:(lia)). lia.
Qed.

(** A positive number is written with a leading digit other than zero. *)
Lemma pretty_N_go_head x : ∀ s,
  0 < x →
  ∃ c r, pretty_N_go x s = String c r ∧ is_Some (digit_of c) ∧ c ≠ "0"%char.
Proof.
  induction (N.lt_wf_0 x) as [x _ IH]. intros s Hx.
  rewrite pretty_N_go_step by lia.
  destruct (decide (x `div` 10 = 0)) as [Hz | Hz].
  - rewrite Hz, pretty_N_go_0. eexists _, _. split; [done|].
    assert (x `mod` 10 < 10) by (apply N.mod_lt; lia).
    rewrite digit_of_pretty_char by done. split; [done|].
    intros Hc. apply (pretty_N_char_inj _ 0) in Hc; [| done | lia].
    pose proof (N.div_mod x 10 ltac:(lia)). lia.
  - apply IH; [apply N.div_lt; lia | by apply N.neq_0_lt_0].
Qed.

Lemma read_number_pretty (n : N) (rest : string) :
  (∀ c r, rest = String c r → digit_of c = None) →
  read_number (pretty n +:+ rest) = Some (n, rest).
Proof.
  intros Hrest.
  assert (Hstop : ∀ acc, read_digits acc rest = (acc, rest)).
  { intros acc. destruct rest as [| c r]; [done|]. cbn. by rewrite (Hrest c r). }
  unfold pretty, pretty_N. case_decide as Hn.
  - subst n. change ("0" +:+ rest) with (String "0" rest).
    unfold read_number. cbn [read_digits].
    change (digit_of "0") with (Some 0). cbv iota beta.
    by rewrite Hstop.
  - rewrite pretty_N_go_app. change ("" +:+ rest) with rest.
    destruct (pretty_N_go_head n rest ltac:(lia)) as (c & s & Heq & [d Hd] & _).
    unfold read_number. rewrite Heq, Hd, <- Heq.
    destruct (read_digits_pretty_go n 0 rest) as (m & ->).
    by rewrite Hstop.
Qed.

Lemma pretty_N_unpadded (n : N) : unpadded (pretty n).
Proof.
  unfold pretty, pretty_N. case_decide as Hn; [by left|]. right.
  destruct (pretty_N_go_head n "" ltac:(lia)) as (c & r & -> & ? & ?).
  exists c, r. auto.
Qed.

Lemma pretty_Z_unpadded (z : Z) : unpadded (pretty z).
Proof.
  destruct z as [| p | p]; [by left | apply (pretty_N_unpadded (Npos p)) |].
  change (pretty (Zneg p)) with (String "-" (pretty (Npos p))). right.
  unfold pretty, pretty_N. rewrite decide_False by done.
  destruct (pretty_N_go_head (Npos p) "" ltac:(lia)) as (c & r & -> & ? & ?).
  exists c, r. auto.
Qed.

(** ** The naming grammar *)

Lemma expect_app lit s : expect lit (lit +:+ s) = Some s.
Proof.
  induction lit as [| a lit IH]; [done|].
  change (String a lit +:+ s) with (String a (lit +:+ s)).
  cbn [expect]. by rewrite Ascii.eqb_refl.
Qed.

Lemma parse_format (p : N * N) : parse_name (format_name p) = Some p.
Proof.
  destruct p as [ts g]. unfold parse_name, format_name. cbn [fst snd].
  rewrite expect_app. cbn [mbind option_bind].
  rewrite read_number_pretty by (intros c r [= <- _]; done).
  cbn [mbind option_bind]. rewrite expect_app. cbn [mbind option_bind].
  rewrite read_number_pretty by (intros c r [= <- _]; done).
  done.
Qed.

Lemma expect_Some lit s rest : expect lit s = Some rest → s = lit +:+ rest.
Proof.
  revert s. induction lit as [| a lit IH]; intros s; [by intros [= ->]|].
  destruct s as [| b s]; [done|]. cbn [expect].
  destruct (Ascii.eqb a b) eqn:E; [|done].
  apply Ascii.eqb_eq in E as ->. intros ->%IH. done.
Qed.

(** [read_digits] takes a run of digits off the front and stops at the
    first other character. *)
Lemma read_digits_split s : ∀ acc,
  ∃ ds, s = ds +:+ (read_digits acc s).2 ∧ all_digits ds
        ∧ ∀ c r, (read_digits acc s).2 = String c r → digit_of c = None.
Proof.
  induction s as [| c s IH]; intros acc.
  - exists "". by split_and!.
  - cbn [read_digits]. destruct (digit_of c) as [d|] eqn:E.
    + destruct (IH (10 * acc + d)) as (ds & Hs & Hds & Hstop).
      exists (String c ds). split_and!; [| | done].
      * change (String c ds +:+ ?t) with (String c (ds +:+ t)). by rewrite <- Hs.
      * cbn [all_digits]. rewrite E. by rewrite bool_decide_eq_true_2.
    + exists "". split_and!; [done..|]. cbn. by intros ?? [= <- _].
Qed.

Lemma read_number_Some s n rest :
  read_number s = Some (n, rest) →
  ∃ ds, s = ds +:+ rest ∧ ds ≠ "" ∧ all_digits ds.
Proof.
  unfold read_number. destruct s as [| c s]; [done|].
  destruct (digit_of c) as [d|] eqn:E; [|done].
  destruct (read_digits_split (String c s) 0) as (ds & Hs & Hds & _).
  intros [= Hrd]. cbn [read_digits] in Hs. rewrite Hrd in Hs. cbn [snd] in Hs.
  exists ds. split_and!; [done| |done].
  intros ->. change ("" +:+ rest) with rest in Hs. subst rest. rewrite E in Hrd.
  destruct (read_digits_split s (10 * 0 + d)) as (ds' & Hs' & _).
  rewrite Hrd in Hs'. cbn [snd] in Hs'.
  apply (f_equal String.length) in Hs'.
  assert (Hlen : ∀ a b, String.length (a +:+ b)
                        = (String.length a + String.length b)%nat).
  { intros a b. induction a as [| x a IH]; [done|]. cbn. by rewrite <- IH. }
  rewrite Hlen in Hs'. cbn in Hs'. lia.
Qed.

Lemma read_digits_app ds rest : ∀ acc,
  all_digits ds →
  (∀ c r, rest = String c r → digit_of c = None) →
  read_digits acc (ds +:+ rest) = ((read_digits acc ds).1, rest).
Proof.
  induction ds as [| c ds IH]; intros acc Hds Hrest.
  - change ("" +:+ rest) with rest.
    destruct rest as [| c r]; [done|]. cbn [read_digits]. by rewrite (Hrest c r).
  - cbn [all_digits] in Hds. apply andb_prop_elim in Hds as [Hc Hds].
    apply bool_decide_unpack in Hc as [d Hd].
    change (String c ds +:+ rest) with (String c (ds +:+ rest)).
    cbn [read_digits]. rewrite Hd. by apply IH.
Qed.

Lemma read_number_app ds rest :
  ds ≠ "" → all_digits ds →
  (∀ c r, rest = String c r → digit_of c = None) →
  read_number (ds +:+ rest) = Some ((read_digits 0 ds).1, rest).
Proof.
  intros Hne Hds Hrest. destruct ds as [| c ds]; [done|].
  pose proof Hds as Hds'.
  cbn [all_digits] in Hds'. apply andb_prop_elim in Hds' as [Hc _].
  apply bool_decide_unpack in Hc as [d Hd].
  change (String c ds +:+ rest) with (String c (ds +:+ rest)).
  unfold read_number. rewrite Hd.
  change (String c (ds +:+ rest)) with (String c ds +:+ rest).
  by rewrite read_digits_app.
Qed.

(** The parser accepts exactly the names of the grammar. *)
Lemma parse_name_grammar name : is_Some (parse_name name) ↔ matches_grammar name.
Proof.
  split.
  - intros [[ts g] Hp]. unfold parse_name in Hp.
    destruct (expect "r" name) as [r1|] eqn:E1; [|done].
    cbn [mbind option_bind] in Hp.
    destruct (read_number r1) as [[ts' r2]|] eqn:E2; [|done].
    cbn [mbind option_bind] in Hp.
    destruct (expect "-g" r2) as [r3|] eqn:E3; [|done].
    cbn [mbind option_bind] in Hp.
    destruct (read_number r3) as [[g' r4]|] eqn:E4; [|done].
    cbn [mbind option_bind] in Hp.
    destruct (expect "." r4) as [r5|] eqn:E5; [|done].
    apply expect_Some in E1, E3, E5.
    apply read_number_Some in E2 as (ds1 & -> & ? & ?).
    apply read_number_Some in E4 as (ds2 & -> & ? & ?).
    exists ds1, ds2, r5. by subst.
  - intros (ts & g & ext & -> & Hts & Hg & Dts & Dg).
    unfold parse_name. rewrite expect_app. cbn [mbind option_bind].
    rewrite read_number_app by (try done; by intros ?? [= <- _]).
    cbn [mbind option_bind]. rewrite expect_app. cbn [mbind option_bind].
    rewrite read_number_app by (try done; by intros ?? [= <- _]).
    cbn [mbind option_bind]. rewrite expect_app. by eexists.
Qed.

(** ** [filepath.Join] on ordinary names *)

Lemma path_elems_cons s : ∃ e es, path_elems s = e :: es.
Proof.
  induction s as [| c s (e & es & IH)]; [by eexists _, _|].
  cbn. destruct (is_sep c); [by eexists _, _|]. rewrite IH. by eexists _, _.
Qed.

Lemma path_elems_no_sep n : no_sep n = true → path_elems n = [n].
Proof.
  induction n as [| c n IH]; [done|].
  cbn. intros [Hc Hn]%andb_true_iff. apply negb_true_iff in Hc.
  by rewrite Hc, IH.
Qed.

Lemma path_elems_app a n :
  path_elems (a +:+ "/" +:+ n) = (path_elems a ++ path_elems n)%list.
Proof.
  induction a as [| c a IH]; [done|].
  change (String c a +:+ "/" +:+ n) with (String c (a +:+ "/" +:+ n)).
  cbn [path_elems]. rewrite IH.
  destruct (is_sep c); [done|].
  destruct (path_elems_cons a) as (e & es & ->). done.
Qed.

(** An ordinary last element is written last, whatever precedes it. *)
Lemma clean_elems_snoc rooted n es : ∀ out,
  n ≠ "" → n ≠ "." → n ≠ ".." →
  clean_elems rooted out (es ++ [n])%list = n :: clean_elems rooted out es.
Proof.
  induction es as [| e es IH]; intros out H1 H2 H3.
  - cbn. rewrite decide_False by (intros [?|?]; done).
    by rewrite decide_False.
  - cbn [app clean_elems].
    destruct (decide (e = "" ∨ e = ".")); [by apply IH|].
    destruct (decide (e = "..")); [| by apply IH].
    destruct out as [| top out']; [destruct rooted; by apply IH|].
    destruct (decide (top = "..")); by apply IH.
Qed.

Lemma join_elems_snoc l n : join_elems (l ++ [n])%list = dir_prefix l +:+ n.
Proof.
  induction l as [| e l IH]; [done|].
  cbn [app join_elems dir_prefix]. rewrite IH.
  destruct (l ++ [n])%list eqn:E; [by destruct l|].
  by rewrite !append_assoc.
Qed.

Lemma is_rooted_app d t : d ≠ "" → is_rooted (d +:+ t) = is_rooted d.
Proof. by destruct d. Qed.

Lemma no_sep_not_rooted n : no_sep n = true → is_rooted n = false.
Proof.
  destruct n as [| c n]; [done|]. cbn.
  by intros [?%negb_true_iff _]%andb_true_iff.
Qed.

Lemma filepath_Join_plain d n :
  plain_elem n → filepath_Join d n = join_base d +:+ n.
Proof.
  intros (Hsep & H0 & H1 & H2). unfold filepath_Join, join_base.
  destruct (decide (d = "")) as [-> | Hd].
  - rewrite decide_False by done. unfold filepath_Clean.
    rewrite decide_False by done.
    rewrite no_sep_not_rooted, path_elems_no_sep by done.
    cbn. rewrite decide_False by (intros [?|?]; done).
    by rewrite decide_False.
  - unfold filepath_Clean.
    rewrite decide_False by (by destruct d).
    rewrite is_rooted_app, path_elems_app, (path_elems_no_sep n) by done.
    rewrite clean_elems_snoc by done. cbn [rev]. rewrite join_elems_snoc.
    destruct (is_rooted d); [done|].
    destruct (_ ++ [n])%list eqn:E; [by destruct (rev _)|]. done.
Qed.

Lemma filepath_Join_inj d n1 n2 :
  plain_elem n1 → plain_elem n2 →
  filepath_Join d n1 = filepath_Join d n2 → n1 = n2.
Proof.
  intros H1 H2. rewrite !filepath_Join_plain by done.
  apply (inj (String.app _)).
Qed.

Lemma pretty_N_char_no_sep d : is_sep (pretty_N_char d) = false.
Proof. unfold pretty_N_char. by repeat case_match. Qed.

Lemma pretty_N_go_no_sep x : ∀ s, no_sep (pretty_N_go x s) = no_sep s.
Proof.
  induction (N.lt_wf_0 x) as [x _ IH]. intros s.
  destruct (decide (x = 0)) as [-> | Hx]; [done|].
  rewrite pretty_N_go_step by lia.
  rewrite IH by (apply N.div_lt; lia).
  cbn. by rewrite pretty_N_char_no_sep.
Qed.

Lemma pretty_N_no_sep (n : N) : no_sep (pretty n) = true.
Proof.
  unfold pretty, pretty_N. case_decide; [done|]. by rewrite pretty_N_go_no_sep.
Qed.

Lemma pretty_Z_no_sep (z : Z) : no_sep (pretty z) = true.
Proof.
  destruct z as [| p | p]; [done | apply (pretty_N_no_sep (Npos p)) |].
  change (pretty (Zneg p)) with (String "-" (pretty (Npos p))).
  cbn [no_sep]. by rewrite pretty_N_no_sep.
Qed.

Lemma Sprintf_p_plain g : plain_elem (Sprintf_p g).
Proof.
  unfold plain_elem, Sprintf_p.
  change ("p" +:+ pretty g) with (String "p" (pretty g)).
  split_and!; try done. cbn [no_sep]. by rewrite pretty_Z_no_sep.
Qed.

Lemma Sprintf_p_inj g1 g2 : Sprintf_p g1 = Sprintf_p g2 → g1 = g2.
Proof. unfold Sprintf_p. intros H%(inj (String.app _)). by apply (inj pretty). Qed.

Lemma group_dir_inj d g1 g2 : group_dir d g1 = group_dir d g2 → g1 = g2.
Proof.
  unfold group_dir.
  intros H%filepath_Join_inj; auto using Sprintf_p_plain, Sprintf_p_inj.
Qed.

(** The example of the help text: a backup file named [r32-g2.backup] is
    loaded to the posting directory [p2]. *)
Example help_text_example :
  parse_name "r32-g2.backup" = Some (32, 2)
  ∧ group_dir "." 2 = "p2"
  ∧ group_dir "/var/db/dgraph" 2 = "/var/db/dgraph/p2".
Proof. by vm_compute. Qed.

Example filepath_Join_examples :
  filepath_Join "a/b/../c/" "p12" = "a/c/p12"
  ∧ filepath_Join "../../x//" "p12" = "../../x/p12"
  ∧ filepath_Join "/.." "p1" = "/p1"
  ∧ filepath_Join "" "p-3" = "p-3"
  ∧ filepath_Clean "a/../.." = ".."
  ∧ filepath_Clean "" = ".".
Proof. by vm_compute. Qed.

(** ** The callback of [runRestore] *)

Section CallbackFacts.
Context {Stream Store : Type} `{!Collaborators Stream Store}.

Lemma Dir_restoreOptions pdir g : Dir (restoreOptions pdir g) = group_dir pdir g.
Proof. done. Qed.

(** Everything one call of the callback does, read off its code. *)
Lemma func1_effect pdir since (r : Stream) g (w : World Store) :
  let bo := restoreOptions pdir g in
  let dir := group_dir pdir g in
  let res := (runRestore_func1 pdir since r g w).1 in
  let w' := (runRestore_func1 pdir since r g w).2 in
  stderr w' = stderr w ∧ open_dbs w' = open_dbs w
  ∧ (∃ out, stdout w' = (stdout w ++ out)%list
            ∧ Forall (λ l, ∃ t, l = "--- " +:+ t) out)
  ∧ match open_store bo (disk w !! dir) with
    | OpenFailed msg left_behind =>
        res = Some (EngineError msg)
        ∧ events w' = (events w ++ [EvOpen bo false])%list
        ∧ disk w' = match left_behind with
                    | Some st => <[dir := st]> (disk w)
                    | None => delete dir (disk w)
                    end
    | Opened st =>
        res = EngineError <$> (load_stream st r).2
        ∧ events w' = (events w ++ [EvOpen bo true;
                         EvLoad dir (bool_decide ((load_stream st r).2 = None));
                         EvClose dir])%list
        ∧ disk w' = <[dir := close_store (load_stream st r).1]> (disk w)
    end.
Proof.
  intros bo dir res w'. subst res w'.
  unfold runRestore_func1, bind, Print, OpenManaged, db_Load, db_Close, ret.
  fold bo. change (Dir bo) with dir. cbn.
  destruct (open_store bo (disk w !! dir)) as [st | msg lb]; cbn.
  - rewrite lookup_insert_eq.
    destruct (load_stream st r) as [st' e]. cbn.
    rewrite decide_True by done.
    split_and!; try done.
    + eexists [_; _]. split; [by rewrite <- app_assoc|].
      repeat constructor; by eexists.
    + by rewrite <- !app_assoc.
    + rewrite insert_insert_eq. rewrite <- alter_insert_eq. done.
  - split_and!; try done.
    eexists [_]. split; [done|]. repeat constructor; by eexists.
Qed.

Lemma func1_frame pdir since (r : Stream) g (w : World Store) p :
  p ≠ group_dir pdir g →
  disk (runRestore_func1 pdir since r g w).2 !! p = disk w !! p.
Proof.
  intros Hp.
  destruct (func1_effect pdir since r g w) as (_ & _ & _ & Heff).
  destruct (open_store _ _) as [st | msg [st|]];
    destruct Heff as (_ & _ & ->);
    by rewrite ?lookup_insert_ne, ?lookup_delete_ne.
Qed.

(** The result of a call and the store it leaves depend on the state
    of the group's directory only.  Stated for two posting directories
    on which the engine opens alike. *)
Lemma func1_local d1 d2 since (r : Stream) g (w1 w2 : World Store) :
  (∀ st, open_store (restoreOptions d1 g) st
         = open_store (restoreOptions d2 g) st) →
  disk w1 !! group_dir d1 g = disk w2 !! group_dir d2 g →
  (runRestore_func1 d1 since r g w1).1 = (runRestore_func1 d2 since r g w2).1
  ∧ disk (runRestore_func1 d1 since r g w1).2 !! group_dir d1 g
    = disk (runRestore_func1 d2 since r g w2).2 !! group_dir d2 g.
Proof.
  intros Hopen Hdisk.
  destruct (func1_effect d1 since r g w1) as (_ & _ & _ & H1).
  destruct (func1_effect d2 since r g w2) as (_ & _ & _ & H2).
  rewrite Hdisk, Hopen in H1.
  destruct (open_store _ _) as [st | msg [st|]];
    destruct H1 as (-> & _ & ->); destruct H2 as (-> & _ & ->);
    by rewrite ?lookup_insert_eq, ?lookup_delete_eq.
Qed.

Lemma replay_frame pdir since g (objs : list (BackupObject Stream)) p :
  ∀ w : World Store,
  p ≠ group_dir pdir (Z.of_N g) →
  disk (replay (runRestore_func1 pdir since) g objs w).2 !! p = disk w !! p.
Proof.
  induction objs as [| o objs IH]; intros w Hp; [done|].
  cbn [replay]. unfold bind.
  pose proof (func1_frame pdir since (byteStream o) (Z.of_N g) w p Hp) as Hf.
  destruct (runRestore_func1 _ _ _ _ w) as [[e|] w1]; cbn [snd] in *;
    [done|]. by rewrite IH.
Qed.

Lemma replay_local d1 d2 since g (objs : list (BackupObject Stream)) :
  ∀ w1 w2 : World Store,
  (∀ st, open_store (restoreOptions d1 (Z.of_N g)) st
         = open_store (restoreOptions d2 (Z.of_N g)) st) →
  disk w1 !! group_dir d1 (Z.of_N g) = disk w2 !! group_dir d2 (Z.of_N g) →
  (replay (runRestore_func1 d1 since) g objs w1).1
  = (replay (runRestore_func1 d2 since) g objs w2).1
  ∧ disk (replay (runRestore_func1 d1 since) g objs w1).2
      !! group_dir d1 (Z.of_N g)
    = disk (replay (runRestore_func1 d2 since) g objs w2).2
      !! group_dir d2 (Z.of_N g).
Proof.
  induction objs as [| o objs IH]; intros w1 w2 Hopen Hdisk; [done|].
  cbn [replay]. unfold bind.
  destruct (func1_local d1 d2 since (byteStream o) (Z.of_N g) w1 w2
              Hopen Hdisk) as [Hres Hd].
  destruct (runRestore_func1 d1 _ _ _ w1) as [r1 w1'].
  destruct (runRestore_func1 d2 _ _ _ w2) as [r2 w2'].
  cbn [fst snd] in *. subst r2.
  destruct r1 as [e|]; [done|]. by apply IH.
Qed.

Lemma group_dir_of_N_inj d (g h : N) :
  group_dir d (Z.of_N g) = group_dir d (Z.of_N h) → g = h.
Proof. intros Heq%group_dir_inj. lia. Qed.

(** A run over groups with distinct ids: each outcome, and each
    group's final store, is that of replaying the group on its own from
    the initial state; no other directory changes. *)
Lemma restore_groups_report pdir since
    (groups : list (N * list (BackupObject Stream))) :
  ∀ w : World Store,
  NoDup groups.*1 →
  let fn := runRestore_func1 pdir since in
  (restore_groups fn groups w).1
  = (λ go, (go.1, (replay fn go.1 go.2 w).1)) <$> groups
  ∧ (∀ g objs, (g, objs) ∈ groups →
       disk (restore_groups fn groups w).2 !! group_dir pdir (Z.of_N g)
       = disk (replay fn g objs w).2 !! group_dir pdir (Z.of_N g))
  ∧ (∀ p, (∀ g, g ∈ groups.*1 → p ≠ group_dir pdir (Z.of_N g)) →
       disk (restore_groups fn groups w).2 !! p = disk w !! p).
Proof.
  induction groups as [| [g objs] groups IH]; intros w Hnd fn.
  { split_and!; [done | by intros ?? ?%elem_of_nil | done]. }
  apply NoDup_cons in Hnd as [Hg Hnd].
  cbn [restore_groups]. unfold bind.
  destruct (replay fn g objs w) as [out w1] eqn:Ehead.
  specialize (IH w1 Hnd). cbn zeta in IH. fold fn in IH.
  destruct (restore_groups fn groups w1) as [report w2] eqn:Etail.
  cbn [fst snd ret] in *. destruct IH as (Hrep & Hown & Hother).
  assert (Hw1 : ∀ h, h ≠ g →
            disk w1 !! group_dir pdir (Z.of_N h)
            = disk w !! group_dir pdir (Z.of_N h)).
  { intros h Hne. replace w1 with (replay fn g objs w).2 by by rewrite Ehead.
    apply replay_frame. by intros ?%group_dir_of_N_inj. }
  assert (Hsame : ∀ h objs', h ≠ g →
            (replay fn h objs' w1).1 = (replay fn h objs' w).1
            ∧ disk (replay fn h objs' w1).2 !! group_dir pdir (Z.of_N h)
              = disk (replay fn h objs' w).2 !! group_dir pdir (Z.of_N h)).
  { intros h objs' Hne. apply replay_local; [done | by apply Hw1]. }
  split_and!.
  - cbn [fmap list_fmap fst snd]. rewrite Ehead. cbn [fst]. f_equal.
    rewrite Hrep. apply Forall_fmap_ext_1, Forall_forall.
    intros [h objs'] Hin. cbn [fst snd].
    f_equal. apply Hsame. intros ->. apply Hg.
    apply list_elem_of_fmap. by exists (g, objs').
  - intros h objs' [[= -> ->] | Hin]%elem_of_cons.
    + rewrite Hother; [by rewrite Ehead|].
      intros h Hh ?%group_dir_of_N_inj. by subst.
    + rewrite (Hown h objs' Hin). apply Hsame. intros ->. apply Hg.
      apply list_elem_of_fmap. by exists (g, objs').
  - intros p Hp. rewrite Hother.
    + replace w1 with (replay fn g objs w).2 by by rewrite Ehead.
      apply replay_frame, Hp. cbn. by left.
    + intros h Hh. apply Hp. cbn. by right.
Qed.
End CallbackFacts.

(** ** The catalog *)

Section CatalogFacts.
Context {Stream : Type}.
Implicit Types (o x : BackupObject Stream) (l : list (BackupObject Stream)).
Implicit Types (cat : gmap N (list (BackupObject Stream))).

Local Abbreviation ts_lt :=
  (λ a b : BackupObject Stream, readTimestamp a < readTimestamp b).

Lemma insert_by_timestamp_None o l :
  StronglySorted ts_lt l →
  insert_by_timestamp o l = None ↔ ∃ x, x ∈ l ∧ readTimestamp x = readTimestamp o.
Proof.
  induction 1 as [| x l Hl IH Hx].
  - split; [done | by intros (? & ?%elem_of_nil & _)].
  - cbn [insert_by_timestamp].
    destruct (N.ltb_spec (readTimestamp o) (readTimestamp x)) as [Hlt | Hge].
    { split; [done|]. intros (y & [-> | Hy]%elem_of_cons & Heq); [lia|].
      rewrite Forall_forall in Hx. specialize (Hx y Hy). cbn in Hx. lia. }
    destruct (N.eqb_spec (readTimestamp o) (readTimestamp x)) as [Heq | Hne].
    { split; [|done]. intros _. exists x. split; [left | done]. }
    rewrite fmap_None, IH. split.
    + intros (y & Hy & Heq). exists y. split; [by right | done].
    + intros (y & [-> | Hy]%elem_of_cons & Heq); [done|]. by exists y.
Qed.

Lemma insert_by_timestamp_Some o l l' :
  StronglySorted ts_lt l →
  insert_by_timestamp o l = Some l' →
  StronglySorted ts_lt l' ∧ ∀ x, x ∈ l' ↔ x = o ∨ x ∈ l.
Proof.
  intros Hl. revert l'. induction Hl as [| x l Hl IH Hx]; intros l'.
  - intros [= <-]. split; [repeat constructor|]. intros y.
    rewrite list_elem_of_singleton. split; [by left|].
    by intros [? | ?%elem_of_nil].
  - cbn [insert_by_timestamp].
    destruct (N.ltb_spec (readTimestamp o) (readTimestamp x)) as [Hlt | Hge].
    { intros [= <-]. split; [| intros y; by rewrite elem_of_cons].
      constructor; [by constructor|]. constructor; [done|].
      eapply Forall_impl; [exact Hx|]. cbn. intros; lia. }
    destruct (N.eqb_spec (readTimestamp o) (readTimestamp x)) as [Heq | Hne];
      [done|].
    destruct (insert_by_timestamp o l) as [l1|] eqn:E; [|done].
    intros [= <-]. destruct (IH _ eq_refl) as [Hs Hmem]. split.
    + constructor; [done|]. apply Forall_forall. intros y [-> | Hy]%Hmem.
      * cbn. lia.
      * rewrite Forall_forall in Hx. by apply Hx.
    + intros y. rewrite !elem_of_cons, Hmem. tauto.
Qed.

Lemma in_catalog_default x cat :
  catalog_ok cat →
  ∀ g, x ∈ default [] (cat !! g) ↔ in_catalog x cat ∧ groupID x = g.
Proof.
  intros Hok g. unfold in_catalog. split.
  - destruct (cat !! g) as [l|] eqn:E; [| by intros ?%elem_of_nil].
    cbn. intros Hx. destruct (Hok g l E) as [_ Hg].
    rewrite Forall_forall in Hg. specialize (Hg x Hx). subst g. eauto.
  - intros [(l & El & Hx) <-]. by rewrite El.
Qed.

Lemma catalog_add_inl cat o fault :
  catalog_ok cat → catalog_add cat o = inl fault →
  fault = DuplicateObject (groupID o) (readTimestamp o)
  ∧ ∃ x, in_catalog x cat ∧ object_key x = object_key o.
Proof.
  intros Hok. unfold catalog_add.
  destruct (insert_by_timestamp o _) as [l'|] eqn:E; [done|].
  intros [= <-]. split; [done|].
  apply insert_by_timestamp_None in E as (x & Hx & Hts).
  - apply in_catalog_default in Hx as [Hin Hg]; [|done].
    exists x. split; [done|]. unfold object_key. by rewrite Hg, Hts.
  - destruct (cat !! groupID o) as [l|] eqn:El; [| constructor].
    by apply (Hok _ _ El).
Qed.

Lemma catalog_add_inr cat o cat' :
  catalog_ok cat → catalog_add cat o = inr cat' →
  catalog_ok cat'
  ∧ (∀ x, in_catalog x cat' ↔ x = o ∨ in_catalog x cat)
  ∧ ∀ x, in_catalog x cat → object_key x ≠ object_key o.
Proof.
  intros Hok. unfold catalog_add.
  destruct (insert_by_timestamp o _) as [l'|] eqn:E; [|done].
  intros [= <-].
  assert (Hsorted : StronglySorted ts_lt (default [] (cat !! groupID o))).
  { destruct (cat !! groupID o) as [l|] eqn:El; [| constructor].
    by apply (Hok _ _ El). }
  destruct (insert_by_timestamp_Some _ _ _ Hsorted E) as [Hs Hmem].
  split_and!.
  - intros g l. destruct (decide (g = groupID o)) as [-> | Hne].
    + rewrite lookup_insert_eq. intros [= <-]. split; [done|].
      apply Forall_forall. intros x [-> | Hx]%Hmem; [done|].
      by apply in_catalog_default in Hx as [_ ?].
    + rewrite lookup_insert_ne by done. apply Hok.
  - intros x. unfold in_catalog at 1.
    destruct (decide (groupID x = groupID o)) as [Heq | Hne].
    + rewrite Heq, lookup_insert_eq. split.
      * intros (l & [= <-] & [-> | Hx]%Hmem); [by left | right].
        by apply in_catalog_default in Hx as [? _].
      * intros Hx. exists l'. split; [done|]. apply Hmem.
        destruct Hx as [-> | Hx]; [by left | right].
        by apply in_catalog_default.
    + rewrite lookup_insert_ne by done. split; [by right|].
      intros [-> | Hx]; done.
  - intros x Hx [= Hg Hts].
    assert (is_Some (Some l')) as [? Habs] by done.
    rewrite <- E in Habs.
    assert (insert_by_timestamp o (default [] (cat !! groupID o)) = None);
      [| congruence].
    apply insert_by_timestamp_None; [done|].
    exists x. split; [| done]. by apply in_catalog_default.
Qed.

(** Building the catalog fails exactly on a clash of keys; otherwise it
    holds the objects given and those it held before, and nothing else. *)
Lemma catalog_of_spec (objs : list (BackupObject Stream)) : ∀ cat,
  catalog_ok cat →
  match catalog_of objs cat with
  | inl fault => (∃ g t, fault = DuplicateObject g t) ∧ ¬ clash_free objs cat
  | inr cat' =>
      clash_free objs cat ∧ catalog_ok cat'
      ∧ ∀ x, in_catalog x cat' ↔ x ∈ objs ∨ in_catalog x cat
  end.
Proof.
  induction objs as [| o objs IH]; intros cat Hok.
  { cbn. split_and!; [split; [constructor | by intros ?? ?%elem_of_nil]
                      | done |].
  intros x. split; [by right|]. by intros [?%elem_of_nil | ?]. }
  cbn [catalog_of].
  destruct (catalog_add cat o) as [fault | cat1] eqn:Eadd.
  - apply catalog_add_inl in Eadd as (-> & x & Hx & Hkey); [|done].
    split; [by eexists _, _|]. intros [_ Hfree].
    eapply Hfree; [by left | done..].
  - apply catalog_add_inr in Eadd as (Hok1 & Hmem1 & Hnew); [|done].
    specialize (IH cat1 Hok1).
    destruct (catalog_of objs cat1) as [fault | cat'].
    + destruct IH as [Hf Hclash]. split; [done|].
      intros [Hnd Hfree]. apply Hclash.
      cbn [fmap list_fmap] in Hnd. apply NoDup_cons in Hnd as [Hhd Hnd].
      split; [done|]. intros o' x Ho' [-> | Hx]%Hmem1.
      * intros Heq. apply Hhd. rewrite Heq.
        apply list_elem_of_fmap. by exists o'.
      * apply Hfree; [by right | done].
    + destruct IH as ([Hnd Hfree] & Hok' & Hmem). split_and!; [split | done |].
      * cbn [fmap list_fmap]. apply NoDup_cons. split; [|done].
        intros (o' & Heq & Ho')%list_elem_of_fmap.
        eapply (Hfree o' o); [done | | done]. apply Hmem1. by left.
      * intros o' x [-> | Ho']%elem_of_cons Hx; [by apply Hnew |].
        apply (Hfree o' x); [done|]. apply Hmem1. by right.
      * intros x. rewrite Hmem, Hmem1, elem_of_cons. tauto.
Qed.

Lemma catalog_ok_empty : catalog_ok (∅ : gmap N (list (BackupObject Stream))).
Proof. intros g l. by rewrite lookup_empty. Qed.

Lemma in_catalog_empty x : ¬ in_catalog x (∅ : gmap N (list (BackupObject Stream))).
Proof. intros (l & Hl & _). by rewrite lookup_empty in Hl. Qed.

Lemma clash_free_empty (objs : list (BackupObject Stream)) :
  clash_free objs ∅ ↔ NoDup (object_key <$> objs).
Proof.
  split; [by intros [? _]|]. intros Hnd. split; [done|].
  intros o x _ Hx. by apply in_catalog_empty in Hx.
Qed.

(** Names outside the grammar do not reach the catalog. *)
Lemma omap_parse_object_filter (listing : list (string * Stream)) :
  omap parse_object (filter (λ e, is_Some (parse_name e.1)) listing)
  = omap parse_object listing.
Proof.
  induction listing as [| e listing IH]; [done|].
  rewrite filter_cons. destruct (decide (is_Some (parse_name e.1))) as [Hs | Hn].
  - cbn [omap list_omap]. by rewrite IH.
  - cbn [omap list_omap]. rewrite IH.
    assert (parse_object e = None) as ->; [|done].
    unfold parse_object. destruct (parse_name e.1) as [[??]|]; [|done].
    by destruct Hn.
Qed.

Lemma omap_parse_object_nil (listing : list (string * Stream)) :
  omap parse_object listing = [] ↔ Forall (λ e, ¬ matches_grammar e.1) listing.
Proof.
  induction listing as [| e listing IH]; [by split; [constructor|]|].
  cbn [omap list_omap]. rewrite Forall_cons, <- IH, <- parse_name_grammar.
  unfold parse_object. destruct (parse_name e.1) as [[ts g]|]; cbn.
  - split; [done|]. intros [Habs _]. by destruct Habs.
  - split; [|tauto]. intros ->. split; [by intros [? ?] | done].
Qed.
End CatalogFacts.

(** ** Traces of a run *)

Section TraceFacts.
Context {Stream Store : Type} `{!Collaborators Stream Store}.

Lemma new_events_app (w w' : World Store) evs :
  events w' = (events w ++ evs)%list → new_events w w' = evs.
Proof. unfold new_events. intros ->. by rewrite drop_app_length. Qed.

Lemma func1_trace pdir since (r : Stream) g (w : World Store) :
  let w' := (runRestore_func1 pdir since r g w).2 in
  open_dbs w' = open_dbs w ∧ stderr w' = stderr w
  ∧ (∃ out, stdout w' = (stdout w ++ out)%list
            ∧ Forall (λ l, ∃ t, l = "--- " +:+ t) out)
  ∧ (∃ evs, events w' = (events w ++ evs)%list
            ∧ Forall (λ e, event_dir e = group_dir pdir g) evs).
Proof.
  destruct (func1_effect pdir since r g w) as (He & Ho & Hout & Heff).
  split_and!; [done..|].
  destruct (open_store _ _) as [st | msg lb]; destruct Heff as (_ & -> & _);
    eexists; (split; [done|]); by repeat constructor.
Qed.

Lemma replay_trace pdir since g (objs : list (BackupObject Stream)) :
  ∀ w : World Store,
  let w' := (replay (runRestore_func1 pdir since) g objs w).2 in
  open_dbs w' = open_dbs w ∧ stderr w' = stderr w
  ∧ (∃ out, stdout w' = (stdout w ++ out)%list
            ∧ Forall (λ l, ∃ t, l = "--- " +:+ t) out)
  ∧ (∃ evs, events w' = (events w ++ evs)%list
            ∧ Forall (λ e, event_dir e = group_dir pdir (Z.of_N g)) evs).
Proof.
  induction objs as [| o objs IH]; intros w.
  { cbn. split_and!; [done.. | |]; exists []; by rewrite app_nil_r. }
  cbn [replay]. unfold bind.
  destruct (func1_trace pdir since (byteStream o) (Z.of_N g) w)
    as (Ho & He & (out & Hout & Fout) & (evs & Hevs & Fevs)).
  destruct (runRestore_func1 _ _ _ _ w) as [[e|] w1]; cbn [snd] in *.
  { split_and!; eauto. }
  destruct (IH w1) as (Ho' & He' & (out' & Hout' & Fout') & (evs' & Hevs' & Fevs')).
  rewrite Ho', He', Hout', Hevs', Ho, He, Hout, Hevs.
  split_and!; [done..| |].
  - exists (out ++ out')%list. split; [by rewrite app_assoc|].
    by apply Forall_app.
  - exists (evs ++ evs')%list. split; [by rewrite app_assoc|].
    by apply Forall_app.
Qed.

Lemma restore_groups_trace pdir since
    (groups : list (N * list (BackupObject Stream))) :
  ∀ w : World Store,
  let w' := (restore_groups (runRestore_func1 pdir since) groups w).2 in
  open_dbs w' = open_dbs w ∧ stderr w' = stderr w
  ∧ (∃ out, stdout w' = (stdout w ++ out)%list
            ∧ Forall (λ l, ∃ t, l = "--- " +:+ t) out)
  ∧ (∃ evs, events w' = (events w ++ evs)%list
            ∧ Forall (λ e, ∃ g, g ∈ groups.*1
                           ∧ event_dir e = group_dir pdir (Z.of_N g)) evs).
Proof.
  induction groups as [| [g objs] groups IH]; intros w.
  { cbn. split_and!; [done.. | |]; exists []; by rewrite app_nil_r. }
  cbn [restore_groups]. unfold bind.
  destruct (replay_trace pdir since g objs w)
    as (Ho & He & (out & Hout & Fout) & (evs & Hevs & Fevs)).
  destruct (replay _ g objs w) as [res w1]; cbn [snd] in *.
  destruct (IH w1) as (Ho' & He' & (out' & Hout' & Fout') & (evs' & Hevs' & Fevs')).
  destruct (restore_groups _ groups w1) as [report w2]; cbn [snd ret] in *.
  rewrite Ho', He', Hout', Hevs', Ho, He, Hout, Hevs.
  split_and!; [done..| |].
  - exists (out ++ out')%list. split; [by rewrite app_assoc|].
    by apply Forall_app.
  - exists (evs ++ evs')%list. split; [by rewrite app_assoc|].
    apply Forall_app. split.
    + eapply Forall_impl; [exact Fevs|]. intros e He0. exists g.
      split; [cbn; by left | done].
    + eapply Forall_impl; [exact Fevs'|]. intros e (h & Hh & He0). exists h.
      split; [cbn; by right | done].
Qed.

(** A line that starts with three dashes is no elapsed-time line. *)
Lemma dashes_not_elapsed t : is_elapsed_line ("--- " +:+ t) = false.
Proof. done. Qed.

Lemma elapsed_line_recognised t : is_elapsed_line (elapsed_prefix +:+ t) = true.
Proof. unfold is_elapsed_line, elapsed_prefix. cbn. by destruct t. Qed.
End TraceFacts.

(* ================================================================== *)
(** * Part III: properties of the specification *)
(* ================================================================== *)

Section CallbackClaims.
Context {Stream Store : Type} `{!Collaborators Stream Store}.

(** C4. Every storage engine instance the callback opens is configured
    with [SyncWrites = true] (every write is synced before it is
    acknowledged) and [NumVersionsToKeep = math.MaxInt32] (no version
    of a key is pruned), whatever badger's defaults are; and the call
    to [OpenManaged] made with these options is the only one of the
    invocation. *)
Theorem restore_instance_options pdir since (r : Stream) g (w : World Store) :
  let bo := restoreOptions pdir g in
  let w' := (runRestore_func1 pdir since r g w).2 in
  SyncWrites bo = true
  ∧ NumVersionsToKeep bo = MaxInt32
  ∧ MaxInt32 = (2 ^ 31 - 1)%Z
  ∧ (∃ ok, EvOpen bo ok ∈ new_events w w')
  ∧ (∀ o ok, EvOpen o ok ∈ new_events w w' →
       SyncWrites o = true ∧ NumVersionsToKeep o = MaxInt32).
Proof.
  intros bo w'. subst w'. split_and!; [done..| |].
  - destruct (func1_effect pdir since r g w) as (_ & _ & _ & Heff).
    destruct (open_store _ _) as [st | msg lb]; destruct Heff as (_ & Hev & _);
      rewrite (new_events_app _ _ _ Hev); eexists; by left.
  - intros o ok.
    destruct (func1_effect pdir since r g w) as (_ & _ & _ & Heff).
    destruct (open_store _ _) as [st | msg lb]; destruct Heff as (_ & Hev & _);
      rewrite (new_events_app _ _ _ Hev); rewrite !elem_of_cons;
      intros Hin; repeat destruct Hin as [[=] | Hin]; subst;
      by try apply elem_of_nil in Hin.
Qed.

(** C5. The directory of group [g] under the destination root [d] is
    [filepath.Join(d, "p" ++ decimal g)]: the root as cleaned by
    [Join], then the letter [p], then the group id in decimal without
    padding; it is also the value directory; and two different group
    ids never get the same directory. *)
Theorem group_directory_layout (d : string) (g : Z) :
  Dir (restoreOptions d g) = filepath_Join d ("p" +:+ pretty g)
  ∧ ValueDir (restoreOptions d g) = Dir (restoreOptions d g)
  ∧ Dir (restoreOptions d g) = join_base d +:+ "p" +:+ pretty g
  ∧ unpadded (pretty g)
  ∧ ∀ g', Dir (restoreOptions d g) = Dir (restoreOptions d g') → g = g'.
Proof.
  split_and!; [done | done | | apply pretty_Z_unpadded |].
  - rewrite Dir_restoreOptions. unfold group_dir.
    by rewrite filepath_Join_plain by apply Sprintf_p_plain.
  - intros g'. rewrite !Dir_restoreOptions. apply group_dir_inj.
Qed.

(** C6, as amended. The callback makes no check of its own on the
    group's directory.  Whether or not the directory exists, it hands
    the directory to the storage engine; its result is badger's error
    from opening or from the bulk load, and nil otherwise, never a
    [DestinationConflictError]; when the engine opens an existing
    directory the stream is loaded into the store found there. *)
Theorem restore_into_existing_directory pdir since (r : Stream) g
    (w : World Store) :
  let bo := restoreOptions pdir g in
  let dir := group_dir pdir g in
  let res := (runRestore_func1 pdir since r g w).1 in
  let w' := (runRestore_func1 pdir since r g w).2 in
  (∀ n, res ≠ Some (DestinationConflictError n))
  ∧ (res = None ↔
       ∃ st, open_store bo (disk w !! dir) = Opened st
             ∧ (load_stream st r).2 = None)
  ∧ (∀ msg, res = Some (EngineError msg) ↔
       (∃ left_behind, open_store bo (disk w !! dir) = OpenFailed msg left_behind)
       ∨ (∃ st, open_store bo (disk w !! dir) = Opened st
                ∧ (load_stream st r).2 = Some msg))
  ∧ (∀ st, open_store bo (disk w !! dir) = Opened st →
       disk w' !! dir = Some (close_store (load_stream st r).1)).
Proof.
  intros bo dir res w'. subst res w'.
  destruct (func1_effect pdir since r g w) as (_ & _ & _ & Heff).
  fold bo dir in Heff.
  destruct (open_store bo (disk w !! dir)) as [st | msg lb].
  - destruct Heff as (-> & _ & ->). split_and!.
    + intros n. by destruct (load_stream st r).2.
    + split.
      * intros Hres. exists st. split; [done|].
        by destruct (load_stream st r).2.
      * intros (st' & [= <-] & ->). done.
    + intros msg. split.
      * intros Hres. right. exists st. split; [done|].
        destruct (load_stream st r).2; by simplify_eq/=.
      * intros [[lb [=]] | (st' & [= <-] & ->)]. done.
    + intros st' [= <-]. by rewrite lookup_insert_eq.
  - destruct Heff as (-> & _ & _). split_and!.
    + done.
    + split; [done|]. by intros (st' & [=] & _).
    + intros msg'. split.
      * intros [= ->]. left. by exists lb.
      * intros [[lb' [= -> _]] | (st' & [=] & _)]. done.
    + by intros st' [=].
Qed.

(** C7. Whether the bulk load succeeds or fails, the instance opened by
    an invocation of the callback is closed before the invocation
    returns: the set of open instances is what it was, the engine calls
    of the invocation are open, load, close on the group's directory,
    and a whole group's replay ends with every instance closed.  When
    the open itself fails there is no instance and nothing to close. *)
Theorem instance_closed_after_replay pdir since (r : Stream) g
    (objs : list (BackupObject Stream)) (n : N) (w : World Store) :
  let bo := restoreOptions pdir g in
  let dir := group_dir pdir g in
  let w' := (runRestore_func1 pdir since r g w).2 in
  open_dbs w' = open_dbs w
  ∧ match open_store bo (disk w !! dir) with
    | Opened st =>
        ∃ ok, new_events w w' = [EvOpen bo true; EvLoad dir ok; EvClose dir]
              ∧ (ok = true ↔ (runRestore_func1 pdir since r g w).1 = None)
    | OpenFailed _ _ => new_events w w' = [EvOpen bo false]
    end
  ∧ open_dbs (replay (runRestore_func1 pdir since) n objs w).2 = open_dbs w.
Proof.
  intros bo dir w'. subst w'.
  destruct (func1_effect pdir since r g w) as (_ & Hopen & _ & Heff).
  fold bo dir in Heff. split_and!; [done | |].
  - destruct (open_store bo (disk w !! dir)) as [st | msg lb].
    + destruct Heff as (-> & Hev & _). eexists. split.
      * by apply new_events_app.
      * destruct (load_stream st r).2; cbn; by rewrite ?bool_decide_eq_true.
    + destruct Heff as (_ & Hev & _). by apply new_events_app.
  - by destruct (replay_trace pdir since n objs w) as (? & _).
Qed.
End CallbackClaims.

(** C6, counterexample. The directory [/data/p1] of group 1 is already
    populated when the callback is invoked for group 1: the replay does
    not fail, and the record of the stream is loaded on top of the old
    content.  The same happens within one run: the second object of
    group 1 is loaded into the directory that the first one created. *)
Lemma populated_directory_is_loaded_into :
  (disk populated_world !! group_dir "/data" 1 = Some [("zed", 3, "z0")]
   ∧ (runRestore_func1 "/data" 0 [Some ("alice", 7, "a0")] 1 populated_world).1
     = None
   ∧ disk (runRestore_func1 "/data" 0 [Some ("alice", 7, "a0")] 1
             populated_world).2 !! group_dir "/data" 1
     = Some [("zed", 3, "z0"); ("alice", 7, "a0")])
  ∧ (let first := runRestore_func1 "/data" 0
                    [Some ("alice", 7, "a0"); Some ("bob", 9, "b0")] 1
                    empty_world in
     let second := runRestore_func1 "/data" 0 [Some ("alice", 21, "a1")] 1
                     first.2 in
     disk first.2 !! group_dir "/data" 1
     = Some [("alice", 7, "a0"); ("bob", 9, "b0")]
     ∧ second.1 = None
     ∧ disk second.2 !! group_dir "/data" 1
       = Some [("alice", 7, "a0"); ("bob", 9, "b0"); ("alice", 21, "a1")]).
Proof. by vm_compute. Qed.

Section RunClaims.
Context {Stream Store : Type} `{!Collaborators Stream Store}.

(** C10, as amended. On every run whose body returns: what [run] prints
    after the body is the elapsed-time line when the returned error is
    nil, and nothing when it is an error, so an elapsed-time line is
    printed after the body exactly when the run succeeds.  On success
    nothing goes to stderr and the command returns; on a returned error
    the error is written to stderr, nothing more is printed and the
    process exits with status 1.  When the body itself printed no
    elapsed-time line, the whole output contains one exactly when the
    run succeeds. *)
Theorem elapsed_printed_iff_nil_on_return (Load : LoadCall) (o : opt)
    (w : World Store) (err : option error) :
  (run_body Load o w).1 = Returns err →
  let body := run_body Load o w in
  let res := Restore_Cmd_Run Load o w in
  (run Load o w).1 = Returns err
  ∧ (Exists (λ l, is_elapsed_line l = true) (new_stdout body.2 res.2)
     ↔ err = None)
  ∧ match err with
    | None =>
        res.1 = Returned
        ∧ stderr res.2 = stderr body.2
        ∧ ∃ txt, new_stdout body.2 res.2 = [elapsed_prefix +:+ txt +:+ nl]
    | Some e =>
        res.1 = Exited 1
        ∧ stderr res.2 = (stderr body.2 ++ [e])%list
        ∧ new_stdout body.2 res.2 = []
    end
  ∧ (Forall (λ l, is_elapsed_line l = false) (stdout body.2) →
     (Exists (λ l, is_elapsed_line l = true) (stdout res.2) ↔ err = None)).
Proof.
  intros Hret body res. subst body res.
  unfold Restore_Cmd_Run, run, bind, new_stdout.
  destruct (run_body Load o w) as [c w1]. cbn [fst] in Hret. subst c.
  cbn [named_result].
  destruct err as [e|];
    unfold run_deferred, Print, Fprintln_Stderr, ret; cbn [fst snd stdout stderr].
  - rewrite drop_all. split_and!; try done.
    + split; [by intros ?%Exists_nil | done].
    + intros Hquiet. split; [|done].
      intros Hex. apply Exists_exists in Hex as (l & Hl & Htrue).
      rewrite Forall_forall in Hquiet. specialize (Hquiet l Hl). congruence.
  - rewrite drop_app_length. split_and!; try done.
    + split; [done|]. intros _. apply Exists_cons_hd, elapsed_line_recognised.
    + by eexists.
    + intros _. split; [done|]. intros _. apply Exists_app. right.
      apply Exists_cons_hd, elapsed_line_recognised.
Qed.

(** When the body of [run] panics, the deferred function finds [err]
    nil: the elapsed-time line is printed, [Fprintln] is never reached
    and the process ends with status 2. *)
Lemma run_panics (Load : LoadCall) (o : opt) (w : World Store) v :
  (run_body Load o w).1 = Panics v →
  let body := run_body Load o w in
  let res := Restore_Cmd_Run Load o w in
  res.1 = Exited 2
  ∧ stderr res.2 = stderr body.2
  ∧ ∃ txt, new_stdout body.2 res.2 = [elapsed_prefix +:+ txt +:+ nl].
Proof.
  intros Hp body res. subst body res.
  unfold Restore_Cmd_Run, run, bind, new_stdout.
  destruct (run_body Load o w) as [c w1]. cbn [fst] in Hp. subst c.
  cbn [named_result]. unfold run_deferred, Print, ret. cbn [fst snd stdout stderr].
  rewrite drop_app_length. split_and!; [done | done | by eexists].
Qed.
End RunClaims.

(** C10, witness: the sample location restored into [/data]. *)
Lemma elapsed_printed_iff_nil_on_return_witness :
  (run_body (returning Load) (mkOpt "/var/backups/dgraph" "/data" 0)
     empty_world).1 = Returns None
  ∧ (Restore_Cmd_Run (returning Load) (mkOpt "/var/backups/dgraph" "/data" 0)
       empty_world).1 = Returned
  ∧ (Exists (λ l, is_elapsed_line l = true)
       (new_stdout
          (run_body (returning Load) (mkOpt "/var/backups/dgraph" "/data" 0)
             empty_world).2
          (Restore_Cmd_Run (returning Load)
             (mkOpt "/var/backups/dgraph" "/data" 0) empty_world).2)
     ↔ (None : option error) = None).
Proof.
  assert (Hret : (run_body (returning Load)
                    (mkOpt "/var/backups/dgraph" "/data" 0) empty_world).1
                 = Returns None) by (by vm_compute).
  split; [exact Hret|].
  destruct (elapsed_printed_iff_nil_on_return (returning Load)
              (mkOpt "/var/backups/dgraph" "/data" 0) empty_world None Hret)
    as (_ & Hiff & (Hres & _) & _).
  split; [exact Hres | exact Hiff].
Defined.

(** C10, counterexample. [Load] panics: the run has failed and the
    process ends with status 2, yet the elapsed-time line is the last
    line of the output, and no error has been printed with [Fprintln]. *)
Lemma elapsed_printed_on_panic :
  Restore_Cmd_Run panicking_load (mkOpt "/var/backups/dgraph" "/data" 0)
    empty_world
  = (Exited 2,
     mkWorld ∅ [] []
       ["Restoring backups from: /var/backups/dgraph" +:+ nl;
        "Writing postings to: /data" +:+ nl;
        "Restore: Time elapsed: 0s" +:+ nl]
       []).
Proof. by vm_compute. Qed.

(** The command on the sample location restored into [/data], and on a
    location that does not resolve. *)
Example elapsed_printed_examples :
  last (stdout (Restore_Cmd_Run (returning Load)
                  (mkOpt "/var/backups/dgraph" "/data" 0) empty_world).2)
  = Some ("Restore: Time elapsed: 0s" +:+ nl)
  ∧ Restore_Cmd_Run (returning Load) (mkOpt "/var/backups/none" "/data" 0)
      empty_world
    = (Exited 1,
       mkWorld ∅ [] []
         ["Restoring backups from: /var/backups/none" +:+ nl;
          "Writing postings to: /data" +:+ nl]
         [ResolutionError "no such location"]).
Proof. by vm_compute. Qed.

(** C8. For every object name of the grammar
    [r<timestamp>-g<groupID>.<ext>], the parsed pair, once written in the
    canonical form, parses to the same pair again; the canonical name is
    in the grammar and is its own canonical form. *)
Theorem parse_format_idempotent (name : string) :
  matches_grammar name →
  ∃ p, parse_name name = Some p
       ∧ parse_name (format_name p) = Some p
       ∧ matches_grammar (format_name p)
       ∧ format_name <$> parse_name (format_name p) = Some (format_name p).
Proof.
  intros [p Hp]%parse_name_grammar. exists p.
  pose proof (parse_format p) as Hpf. split_and!; [done | done | |].
  - apply parse_name_grammar. by rewrite Hpf.
  - by rewrite Hpf.
Qed.

(** C8, witness: a name with a padded timestamp and another extension. *)
Lemma parse_format_idempotent_witness :
  matches_grammar "r032-g2.bak"
  ∧ ∃ p, parse_name "r032-g2.bak" = Some p
         ∧ parse_name (format_name p) = Some p
         ∧ matches_grammar (format_name p)
         ∧ format_name <$> parse_name (format_name p) = Some (format_name p).
Proof.
  assert (Hg : matches_grammar "r032-g2.bak").
  { exists "032", "2", "bak". split_and!; done. }
  split; [exact Hg|]. exact (parse_format_idempotent "r032-g2.bak" Hg).
Defined.

Section CatalogClaims.
Context {Stream : Type}.

(** C3. Enumeration fails exactly when no object name of the listing is
    in the grammar or two parsed objects have the same
    [(groupID, timestamp)]; the failure is a [CatalogError].  When it
    succeeds the catalog holds every parsed object and nothing else, so
    no object has been overwritten, and the names outside the grammar
    play no part in the result. *)
Theorem enumerate_fails_iff (listing : list (string * Stream)) :
  let objs := omap parse_object listing in
  ((∃ e, enumerate listing = inl e) ↔
     Forall (λ entry, ¬ matches_grammar entry.1) listing
     ∨ ¬ NoDup (object_key <$> objs))
  ∧ (∀ e, enumerate listing = inl e → ∃ fault, e = CatalogError fault)
  ∧ (∀ cat, enumerate listing = inr cat →
       catalog_ok cat ∧ ∀ o, in_catalog o cat ↔ o ∈ objs)
  ∧ enumerate listing
    = enumerate (filter (λ entry, is_Some (parse_name entry.1)) listing).
Proof.
  intros objs.
  assert (Hnil : objs = [] ↔ Forall (λ entry, ¬ matches_grammar entry.1) listing)
    by apply omap_parse_object_nil.
  pose proof (catalog_of_spec objs ∅ catalog_ok_empty) as Hspec.
  unfold enumerate. fold objs.
  rewrite omap_parse_object_filter. fold objs.
  split_and!; [| | | done].
  - destruct objs as [| o objs'] eqn:Eobjs.
    { split; [intros _; left; by apply Hnil | by eexists]. }
    destruct (catalog_of (o :: objs') ∅) as [fault | cat].
    + destruct Hspec as [_ Hclash]. split; [|by eexists].
      intros _. right. by rewrite <- clash_free_empty.
    + destruct Hspec as (Hfree & _). split; [by intros [? ?]|].
      intros [Hall | Hdup].
      * by apply Hnil in Hall.
      * by apply clash_free_empty in Hfree.
  - intros e. destruct objs as [| o objs']; [intros [= <-]; by eexists|].
    destruct (catalog_of (o :: objs') ∅) as [fault | cat]; [|done].
    intros [= <-]. by eexists.
  - intros cat. destruct objs as [| o objs'] eqn:Eobjs; [done|].
    destruct (catalog_of (o :: objs') ∅) as [fault | cat']; [done|].
    intros [= <-]. destruct Hspec as (_ & Hok & Hmem). split; [done|].
    intros x. rewrite Hmem. split; [|by left].
    intros [? | Habs]; [done|]. by apply in_catalog_empty in Habs.
Qed.

Local Instance ts_le_transitive :
  Transitive (λ a b : BackupObject Stream, readTimestamp a ≤ readTimestamp b).
Proof. intros a b c. cbn. lia. Qed.

(** On an ascending sequence the objects newer than the watermark are
    its longest suffix of newer objects. *)
Lemma filter_newer_longest_suffix (s : N) (objs : list (BackupObject Stream)) :
  ascending objs →
  longest_suffix (λ o, s < readTimestamp o)
    (filter (λ o, s < readTimestamp o) objs) objs.
Proof.
  intros Hasc. unfold ascending in Hasc.
  apply (Sorted_StronglySorted _) in Hasc.
  induction Hasc as [| x l Hl IH Hx].
  { split_and!; [done | constructor |]. intros k' Hk' _.
    by apply suffix_length. }
  rewrite filter_cons. destruct (decide (s < readTimestamp x)) as [Hnew | Hold].
  - assert (Hall : Forall (λ o, s < readTimestamp o) l).
    { eapply Forall_impl; [exact Hx|]. cbn. intros; lia. }
    assert (filter (λ o, s < readTimestamp o) l = l) as ->.
    { clear -Hall. induction Hall as [| y l Hy _ IHl]; [done|].
      rewrite filter_cons, decide_True by done. by rewrite IHl. }
    split_and!; [done | by constructor |].
    intros k' Hk' _. by apply suffix_length.
  - destruct IH as (Hsuf & Hfor & Hmax). split_and!; [| done |].
    + by apply suffix_cons_r.
    + intros [| y k'] Hk' Hfk'; [cbn; lia|].
      apply suffix_cons_inv in Hk' as [[= -> ->] | Hk'].
      * by apply Forall_cons in Hfk' as [? _].
      * by apply Hmax.
Qed.

Lemma planned_groups_elem (p : gmap N (list (BackupObject Stream))) g objs :
  (g, objs) ∈ planned_groups p ↔ p !! g = Some objs ∧ objs ≠ [].
Proof.
  unfold planned_groups. rewrite list_elem_of_filter, elem_of_map_to_list.
  cbn. tauto.
Qed.

Lemma planned_groups_NoDup (p : gmap N (list (BackupObject Stream))) :
  NoDup (planned_groups p).*1.
Proof.
  eapply sublist_NoDup; [apply (NoDup_fst_map_to_list p)|].
  apply fmap_sublist, sublist_filter.
Qed.
End CatalogClaims.

(** The example run of the specification: the location holds
    [r10-g1.backup], [r25-g1.backup] and [r15-g2.backup]. *)
Example sample_plans :
  let cat := catalog_or_empty sample_listing in
  readTimestamp <$> default [] (plan cat 10 !! 1) = [25]
  ∧ readTimestamp <$> default [] (plan cat 10 !! 2) = [15]
  ∧ readTimestamp <$> default [] (plan cat 0 !! 1) = [10; 25]
  ∧ (planned_groups (plan cat 25)).*1 = []
  ∧ dom (disk (runRestore Load "/data" "/var/backups/dgraph" 10 empty_world).2)
    = {[ "/data/p1"; "/data/p2" ]}.
Proof. by vm_compute. Qed.

Section RestoreClaims.
Context {Stream Store : Type} `{!Collaborators Stream Store}.

Lemma runRestore_Load pdir location since listing cat (w : World Store) :
  resolve location = inr listing → enumerate listing = inr cat →
  runRestore Load pdir location since w
  = let run := restore_groups (runRestore_func1 pdir since)
                 (planned_groups (plan cat since)) w in
    (if forallb (λ go, succeeded go.2) run.1 then None
     else Some (RestoreFailed run.1), run.2).
Proof.
  intros Hres Henum. unfold runRestore, Load. rewrite Hres, Henum.
  unfold bind, ret. by destruct (restore_groups _ _ w).
Qed.

Lemma replay_failed pdir since g (objs : list (BackupObject Stream)) e :
  ∀ w : World Store,
  (replay (runRestore_func1 pdir since) g objs w).1 = Failed e →
  ∃ o cause, o ∈ objs ∧ e = ReplayError g (readTimestamp o) cause.
Proof.
  induction objs as [| o objs IH]; intros w; [done|].
  cbn [replay]. unfold bind.
  destruct (runRestore_func1 _ _ _ _ w) as [[c|] w1]; cbn.
  - intros [= <-]. exists o, c. split; [by left | done].
  - intros (o' & c & Ho' & ->)%IH. exists o', c. split; [by right | done].
Qed.

(** C1. For a catalog whose sequence for group [g] is ascending by
    timestamp, the plan for watermark [s] keeps for [g] the objects with
    [timestamp > s], in their order; this is the longest suffix of the
    sequence whose timestamps all exceed [s].  When no timestamp of the
    group exceeds [s] the plan of the group is empty, the group is not
    among the groups replayed, and the run neither changes the group's
    directory nor makes any engine call on it. *)
Theorem plan_keeps_newer_suffix (cat : gmap N (list (BackupObject Stream)))
    (s g : N) (objs : list (BackupObject Stream)) pdir (w : World Store) :
  cat !! g = Some objs → ascending objs →
  let newer := λ o : BackupObject Stream, s < readTimestamp o in
  let kept := filter newer objs in
  plan cat s !! g = Some kept
  ∧ kept `sublist_of` objs
  ∧ (∀ o, o ∈ kept ↔ o ∈ objs ∧ s < readTimestamp o)
  ∧ longest_suffix newer kept objs
  ∧ (Forall (λ o, readTimestamp o ≤ s) objs →
       plan cat s !! g = Some []
       ∧ (g ∉ (planned_groups (plan cat s)).*1)
       ∧ (let w' := (restore_groups (runRestore_func1 pdir s)
                       (planned_groups (plan cat s)) w).2 in
          disk w' !! group_dir pdir (Z.of_N g)
          = disk w !! group_dir pdir (Z.of_N g)
          ∧ Forall (λ e, event_dir e ≠ group_dir pdir (Z.of_N g))
                   (new_events w w'))).
Proof.
  intros Hcat Hasc newer kept.
  assert (Hplan : plan cat s !! g = Some kept).
  { unfold plan. by rewrite lookup_fmap, Hcat. }
  split_and!; [done | apply sublist_filter | | by apply filter_newer_longest_suffix |].
  { intros o. subst kept newer. by rewrite list_elem_of_filter, (comm and). }
  intros Hold.
  assert (Hnil : kept = []).
  { subst kept. clear -Hold. induction Hold as [| x l Hx _ IH]; [done|].
    rewrite filter_cons, decide_False by (unfold newer; lia). done. }
  assert (Hskip : g ∉ (planned_groups (plan cat s)).*1).
  { intros ([g' objs'] & -> & [Hg Hne]%planned_groups_elem)%list_elem_of_fmap.
    cbn in *. congruence. }
  split_and!; [congruence | done |]. cbv zeta. split.
  - apply restore_groups_report; [apply planned_groups_NoDup|].
    intros h Hh ?%group_dir_of_N_inj. by subst.
  - destruct (restore_groups_trace pdir s (planned_groups (plan cat s)) w)
      as (_ & _ & _ & (evs & Hevs & Fevs)).
    rewrite (new_events_app _ _ _ Hevs).
    eapply Forall_impl; [exact Fevs|]. cbn.
    intros e (h & Hh & ->) ?%group_dir_of_N_inj. by subst.
Qed.

(** What the banner lines of [run] change is the output only. *)
Lemma restore_groups_same_disk pdir since
    (groups : list (N * list (BackupObject Stream))) (w0 w : World Store) :
  NoDup groups.*1 → disk w0 = disk w →
  (restore_groups (runRestore_func1 pdir since) groups w0).1
  = (restore_groups (runRestore_func1 pdir since) groups w).1.
Proof.
  intros Hnd Hdisk.
  destruct (restore_groups_report pdir since groups w0 Hnd) as (-> & _).
  destruct (restore_groups_report pdir since groups w Hnd) as (-> & _).
  apply Forall_fmap_ext_1, Forall_forall. intros [h objs] _. cbn [fst snd].
  f_equal. apply replay_local; [done | by rewrite Hdisk].
Qed.

(** C2. In a restore run in which the replay of group [G] fails, the
    error returned by the run carries a report with one outcome for
    every planned group; [G]'s entry is a [ReplayError] tagged with [G]
    and the timestamp of one of its objects; for every other planned
    group [H] the outcome reported and the store left in [H]'s
    directory are those of replaying [H] alone from the initial state,
    so [H] is replayed to its own end whatever happened to [G]; and the
    command writes this report to stderr before it exits with 1. *)
Theorem group_failure_is_isolated root loc s listing
    (cat : gmap N (list (BackupObject Stream))) (w : World Store) G e :
  resolve loc = inr listing → enumerate listing = inr cat →
  let fn := runRestore_func1 root s in
  let groups := planned_groups (plan cat s) in
  let run := runRestore Load root loc s w in
  let cmd := Restore_Cmd_Run (returning Load) (mkOpt loc root s) w in
  (G, Failed e) ∈ (restore_groups fn groups w).1 →
  ∃ report,
    run.1 = Some (RestoreFailed report)
    ∧ report.*1 = groups.*1
    ∧ (G, Failed e) ∈ report
    ∧ (∃ objs o cause, (G, objs) ∈ groups ∧ o ∈ objs
                       ∧ e = ReplayError G (readTimestamp o) cause)
    ∧ (∀ H objs, (H, objs) ∈ groups → H ≠ G →
         (H, (replay fn H objs w).1) ∈ report
         ∧ disk run.2 !! group_dir root (Z.of_N H)
           = disk (replay fn H objs w).2 !! group_dir root (Z.of_N H))
    ∧ cmd.1 = Exited 1
    ∧ stderr cmd.2 = (stderr w ++ [RestoreFailed report])%list.
Proof.
  intros Hres Henum fn groups run cmd Hfail. subst run cmd.
  rewrite (runRestore_Load _ _ _ _ _ _ Hres Henum). fold fn groups. cbn zeta.
  destruct (restore_groups_report root s groups w
              (planned_groups_NoDup _)) as (Hrep & Hown & _).
  fold fn in Hrep, Hown.
  set (report := (restore_groups fn groups w).1) in *.
  exists report. cbn [fst snd].
  assert (Hall : forallb (λ go, succeeded go.2) report = false).
  { apply not_true_is_false. intros Hall.
    rewrite forallb_forall in Hall.
    apply list_elem_of_In, Hall in Hfail. done. }
  rewrite Hall. split_and!; [done | | done | | | |].
  - rewrite Hrep, <- list_fmap_compose. by apply list_fmap_ext.
  - rewrite Hrep in Hfail.
    apply list_elem_of_fmap in Hfail as ([G' objs] & [= -> He] & Hin).
    cbn [fst snd] in He. symmetry in He.
    apply replay_failed in He as (o & cause & Ho & ->).
    by exists objs, o, cause.
  - intros H objs Hin Hne. split; [| by apply Hown].
    rewrite Hrep. apply list_elem_of_fmap. by exists (H, objs).
  - unfold Restore_Cmd_Run, run, run_body, returning, runRestore, bind, Print.
    cbn [pdir location since].
    match goal with
    | |- context [Load loc s _ ?w0] =>
        pose proof (runRestore_Load root loc s listing cat w0 Hres Henum) as HL
    end.
    unfold runRestore in HL. rewrite HL. clear HL. fold fn groups. cbn zeta.
    rewrite (restore_groups_same_disk root s groups _ w)
      by (apply planned_groups_NoDup || done).
    fold fn report. by rewrite Hall.
  - unfold Restore_Cmd_Run, run, run_body, returning, runRestore, bind, Print.
    cbn [pdir location since].
    match goal with
    | |- context [Load loc s _ ?w0] =>
        pose proof (runRestore_Load root loc s listing cat w0 Hres Henum) as HL
    end.
    unfold runRestore in HL. rewrite HL. clear HL. fold fn groups. cbn zeta.
    rewrite (restore_groups_same_disk root s groups _ w)
      by (apply planned_groups_NoDup || done).
    fold fn report. rewrite Hall. cbn.
    match goal with
    | |- context [restore_groups fn groups ?w0] =>
        destruct (restore_groups_trace root s groups w0) as (_ & Herr & _)
    end.
    fold fn in Herr. by rewrite Herr.
Qed.

End RestoreClaims.

(** C1, witness: the sample catalog at watermark 25, the newest
    timestamp of group 1. *)
Lemma plan_keeps_newer_suffix_witness :
  let cat := catalog_or_empty sample_listing in
  let o10 := mkObject 1 10 [Some ("alice", 7, "a0"); Some ("bob", 9, "b0")] in
  let o25 := mkObject 1 25 [Some ("alice", 21, "a1")] in
  cat !! 1 = Some [o10; o25] ∧ ascending [o10; o25]
  ∧ plan cat 25 !! 1 = Some (filter (λ o, 25 < readTimestamp o) [o10; o25])
  ∧ longest_suffix (λ o, 25 < readTimestamp o)
      (filter (λ o, 25 < readTimestamp o) [o10; o25]) [o10; o25].
Proof.
  intros cat o10 o25.
  assert (Hcat : cat !! 1 = Some [o10; o25]) by (by vm_compute).
  assert (Hasc : ascending [o10; o25]).
  { unfold ascending. repeat constructor. cbn. lia. }
  split; [exact Hcat|]. split; [exact Hasc|].
  pose proof (plan_keeps_newer_suffix cat 25 1 [o10; o25] "/data" empty_world
                Hcat Hasc) as (Hplan & _ & _ & Hsuffix & _).
  split; [exact Hplan | exact Hsuffix].
Defined.

(** C2, witness: the location whose second object of group 1 is cut
    short; group 2 is restored all the same. *)
Lemma group_failure_is_isolated_witness :
  let cat := catalog_or_empty broken_listing in
  let e := ReplayError 1 25 (EngineError "unexpected EOF") in
  let run := runRestore Load "/data" "/var/backups/broken" 0 empty_world in
  resolve "/var/backups/broken" = inr broken_listing
  ∧ enumerate broken_listing = inr cat
  ∧ (1, Failed e) ∈ (restore_groups (runRestore_func1 "/data" 0)
                       (planned_groups (plan cat 0)) empty_world).1
  ∧ ∃ report, run.1 = Some (RestoreFailed report)
              ∧ report.*1 = (planned_groups (plan cat 0)).*1
              ∧ (1, Failed e) ∈ report.
Proof.
  intros cat e run.
  assert (Hres : resolve "/var/backups/broken" = inr broken_listing) by done.
  assert (Henum : enumerate broken_listing = inr cat) by (by vm_compute).
  assert (Hfail : (1, Failed e) ∈ (restore_groups (runRestore_func1 "/data" 0)
                       (planned_groups (plan cat 0)) empty_world).1).
  { vm_compute. apply list_elem_of_further, list_elem_of_here. }
  split; [exact Hres|]. split; [exact Henum|]. split; [exact Hfail|].
  destruct (group_failure_is_isolated "/data" "/var/backups/broken" 0
              broken_listing cat empty_world 1 e Hres Henum Hfail)
    as (report & H1 & H2 & H3 & _).
  exists report. split; [exact H1|]. split; [exact H2 | exact H3].
Defined.


(* ================================================================== *)
(** * Part IV: further properties of [runRestore] *)
(* ================================================================== *)

(** ** [filepath.Clean] on its own output *)

Lemma path_elems_all_no_sep s : Forall (λ e, no_sep e = true) (path_elems s).
Proof.
  induction s as [| c s IH]; [by repeat constructor|].
  cbn [path_elems]. destruct (is_sep c) eqn:Ec; [by constructor|].
  destruct (path_elems s) as [| e es]; [by repeat constructor; cbn; rewrite Ec|].
  apply Forall_cons in IH as [He Hes]. constructor; [|done].
  cbn. by rewrite Ec, He.
Qed.

Lemma clean_elems_stack rooted es : ∀ st,
  Forall (λ e, no_sep e = true) es → clean_stack rooted st →
  clean_stack rooted (clean_elems rooted st es).
Proof.
  induction es as [| e es IH]; intros st Hes Hst; [done|].
  apply Forall_cons in Hes as [He Hes]. cbn [clean_elems].
  destruct (decide (e = "" ∨ e = ".")) as [Hdrop | Hkeep]; [by apply IH|].
  destruct (decide (e = "..")) as [-> | Hreal].
  - destruct Hst as (reals & k & -> & Hreals & Hk).
    destruct reals as [| top reals].
    + destruct k as [| k]; cbn [app dots replicate].
      * destruct rooted; apply IH; try done.
        -- by exists [], 0%nat.
        -- by exists [], 1%nat.
      * rewrite decide_True by done. apply IH; [done|].
        exists [], (S (S k)). split_and!; [done | done |].
        intros Hr. specialize (Hk Hr). done.
    + apply Forall_cons in Hreals as [Htop Hreals]. cbn [app].
      rewrite decide_False by (by destruct Htop as (_ & _ & _ & ?)).
      apply IH; [done|]. by exists reals, k.
  - apply IH; [done|]. destruct Hst as (reals & k & -> & Hreals & Hk).
    exists (e :: reals), k. split_and!; [done | | done].
    constructor; [|done].
    split_and!; [done | | | done]; intros ->; apply Hkeep; auto.
Qed.

Lemma clean_stack_nil rooted : clean_stack rooted [].
Proof. by exists [], 0%nat. Qed.

Lemma clean_elems_plain rooted es : ∀ st,
  Forall plain_elem es → clean_elems rooted st es = (rev es ++ st)%list.
Proof.
  induction es as [| e es IH]; intros st Hes; [done|].
  apply Forall_cons in Hes as [(_ & H0 & H1 & H2) Hes]. cbn [clean_elems].
  rewrite decide_False by (by intros [? | ?]). rewrite decide_False by done.
  rewrite IH by done. cbn [rev]. by rewrite <- app_assoc.
Qed.

Lemma clean_elems_dots k : ∀ j es,
  clean_elems false (dots j) (dots k ++ es)%list = clean_elems false (dots (k + j)) es.
Proof.
  induction k as [| k IH]; intros j es; [done|].
  cbn [dots replicate app clean_elems].
  rewrite decide_False by (intros [?|?]; done). rewrite decide_True by done.
  destruct j as [| j]; cbn [dots replicate].
  - rewrite (IH 1%nat). f_equal. unfold dots. f_equal. lia.
  - rewrite decide_True by done. rewrite (IH (S (S j))). f_equal. unfold dots.
    f_equal. lia.
Qed.

Lemma rev_dots k : rev (dots k) = dots k.
Proof.
  unfold dots. induction k as [| k IH]; [done|].
  cbn [replicate rev]. rewrite IH. clear IH.
  induction k as [| k IH]; [done|]. cbn. by rewrite IH.
Qed.

(** Cleaning the elements of a clean stack, first written first, gives
    the stack back. *)
Lemma clean_elems_rev_stack rooted st :
  clean_stack rooted st → clean_elems rooted [] (rev st) = st.
Proof.
  intros (reals & k & -> & Hreals & Hk).
  rewrite rev_app_distr, rev_dots.
  destruct rooted.
  - rewrite (Hk eq_refl). cbn [dots replicate app].
    rewrite clean_elems_plain by by apply Forall_rev.
    by rewrite rev_involutive.
  - change (clean_elems false [] ?l) with (clean_elems false (dots 0) l).
    rewrite clean_elems_dots, clean_elems_plain by by apply Forall_rev.
    rewrite rev_involutive. do 2 f_equal. lia.
Qed.

Lemma path_elems_join (l : list string) :
  l ≠ [] → Forall (λ e, no_sep e = true) l → path_elems (join_elems l) = l.
Proof.
  induction l as [| e l IH]; [done|]. intros _ [He Hl]%Forall_cons.
  destruct l as [| e' l]; [by apply path_elems_no_sep|].
  change (join_elems (e :: e' :: l)) with (e +:+ "/" +:+ join_elems (e' :: l)).
  rewrite path_elems_app, path_elems_no_sep, IH by done. done.
Qed.

Lemma clean_stack_no_sep rooted st :
  clean_stack rooted st → Forall (λ e, no_sep e = true) st
                          ∧ Forall (λ e, e ≠ "") st.
Proof.
  intros (reals & k & -> & Hreals & _). rewrite !Forall_app. split_and!.
  - eapply Forall_impl; [exact Hreals|]. by intros e (? & _).
  - unfold dots. apply Forall_replicate. done.
  - eapply Forall_impl; [exact Hreals|]. by intros e (_ & ? & _).
  - unfold dots. apply Forall_replicate. done.
Qed.

Lemma is_rooted_join (l : list string) e :
  no_sep e = true → e ≠ "" → is_rooted (join_elems (e :: l)) = false.
Proof.
  intros He Hne. destruct e as [| c e]; [done|].
  cbn in He. apply andb_true_iff in He as [Hc _]. apply negb_true_iff in Hc.
  destruct l; cbn; done.
Qed.

(** What cleaning a cleaned path sees: the same rootedness and the same
    stack. *)
Lemma Clean_again p :
  let c := filepath_Clean p in
  p ≠ "" →
  c ≠ "" ∧ is_rooted c = is_rooted p
  ∧ clean_elems (is_rooted c) [] (path_elems c)
    = clean_elems (is_rooted p) [] (path_elems p).
Proof.
  intros c Hp. subst c. unfold filepath_Clean. rewrite decide_False by done.
  set (rooted := is_rooted p).
  pose proof (clean_elems_stack rooted (path_elems p) []
                (path_elems_all_no_sep p) (clean_stack_nil rooted)) as Hst.
  set (st := clean_elems rooted [] (path_elems p)) in *.
  pose proof (clean_elems_rev_stack rooted st Hst) as Hrev.
  destruct (clean_stack_no_sep rooted st Hst) as [Hsep Hne].
  apply Forall_rev in Hsep, Hne.
  destruct rooted eqn:Er.
  - split_and!; [done | done |].
    change (is_rooted ("/" +:+ _)) with true.
    change (path_elems ("/" +:+ ?t)) with ("" :: path_elems t).
    cbn [clean_elems]. rewrite decide_True by (by left).
    destruct (rev st) as [| e out] eqn:Eout.
    + cbn. rewrite decide_True by (by left). by rewrite <- Hrev.
    + rewrite path_elems_join by done. done.
  - destruct (rev st) as [| e out] eqn:Eout.
    + split_and!; [done | done |]. cbn. rewrite decide_True by (by right).
      by rewrite <- Hrev.
    + apply Forall_cons in Hsep as [He Hsep'], Hne as [Hne0 _].
      assert (Hroot : is_rooted (join_elems (e :: out)) = false)
        by by apply is_rooted_join.
      split_and!; [| done |].
      * destruct e; [done|]. by destruct out.
      * rewrite Hroot, path_elems_join by (done || by constructor). done.
Qed.

Lemma filepath_Clean_idempotent p :
  filepath_Clean (filepath_Clean p) = filepath_Clean p.
Proof.
  destruct (decide (p = "")) as [-> | Hp]; [done|].
  destruct (Clean_again p Hp) as (Hne & Hroot & Hst).
  unfold filepath_Clean at 1. rewrite decide_False by done.
  rewrite Hst, Hroot. unfold filepath_Clean. by rewrite decide_False.
Qed.

Lemma join_base_Clean d : join_base (filepath_Clean d) = join_base d.
Proof.
  destruct (decide (d = "")) as [-> | Hd]; [done|].
  destruct (Clean_again d Hd) as (Hne & Hroot & Hst).
  unfold join_base. rewrite !decide_False by done. by rewrite Hst, Hroot.
Qed.

Lemma join_base_shape d : join_base d = "" ∨ ∃ b, join_base d = b +:+ "/".
Proof.
  unfold join_base. case_decide; [by left|].
  assert (Hdp : ∀ l, dir_prefix l = "" ∨ ∃ b, dir_prefix l = b +:+ "/").
  { induction l as [| e l [IH | [b IH]]]; [by left | right..]; cbn [dir_prefix].
    - rewrite IH. by exists e.
    - rewrite IH. exists (e +:+ "/" +:+ b). by rewrite !append_assoc. }
  destruct (Hdp (rev (clean_elems (is_rooted d) [] (path_elems d))))
    as [-> | [b ->]].
  - destruct (is_rooted d); [right; by exists "" | by left].
  - right. destruct (is_rooted d); [by exists ("/" +:+ b) | by exists b].
Qed.

Lemma length_append (a b : string) :
  String.length (a +:+ b) = (String.length a + String.length b)%nat.
Proof. induction a as [| x a IH]; [done|]. cbn. by rewrite <- IH. Qed.

Lemma append_cancel_r (a b n : string) : a +:+ n = b +:+ n → a = b.
Proof.
  revert b. induction a as [| x a IH]; intros [| y b] Heq; [done | | |].
  - apply (f_equal String.length) in Heq.
    rewrite !length_append in Heq. cbn in Heq. lia.
  - apply (f_equal String.length) in Heq.
    rewrite !length_append in Heq. cbn in Heq. lia.
  - change (String x (a +:+ n) = String y (b +:+ n)) in Heq.
    injection Heq as -> Heq. by rewrite (IH b Heq).
Qed.

Lemma last_path_elem d n :
  no_sep n = true → last (path_elems (join_base d +:+ n)) = Some n.
Proof.
  intros Hn. destruct (join_base_shape d) as [-> | [b ->]].
  - change ("" +:+ n) with n. by rewrite path_elems_no_sep.
  - rewrite append_assoc, path_elems_app, (path_elems_no_sep n) by done.
    by rewrite last_snoc.
Qed.

Lemma filepath_Clean_nonempty p : filepath_Clean p ≠ "".
Proof.
  destruct (decide (p = "")) as [-> | Hp]; [done|].
  by destruct (Clean_again p Hp) as (? & _).
Qed.

Lemma append_nil_r (a : string) : a +:+ "" = a.
Proof.
  induction a as [| x a IH]; [done|].
  change (String x (a +:+ "") = String x a). by rewrite IH.
Qed.

Lemma clean_elems_app rooted es1 es2 : ∀ st,
  clean_elems rooted st (es1 ++ es2)%list
  = clean_elems rooted (clean_elems rooted st es1) es2.
Proof.
  induction es1 as [| e es1 IH]; intros st; [done|].
  cbn [app clean_elems].
  destruct (decide (e = "" ∨ e = ".")); [by apply IH|].
  destruct (decide (e = "..")); [| by apply IH].
  destruct st as [| top st]; [destruct rooted; by apply IH|].
  destruct (decide (top = "..")); by apply IH.
Qed.

Lemma join_base_trailing_sep d : d ≠ "" → join_base (d +:+ "/") = join_base d.
Proof.
  intros Hd. unfold join_base.
  rewrite decide_False by (by destruct d). rewrite decide_False by done.
  rewrite is_rooted_app by done.
  rewrite <- (append_nil_r (d +:+ "/")), append_assoc, path_elems_app.
  rewrite clean_elems_app. cbn [path_elems clean_elems].
  by rewrite decide_True by (by left).
Qed.

(** X6. The directory given to badger is a clean path: cleaning it again
    changes nothing, and it is never the empty path.  More generally
    [filepath.Clean] is idempotent. *)
Theorem group_dir_is_clean (pdir : string) (g : Z) :
  filepath_Clean (group_dir pdir g) = group_dir pdir g
  ∧ group_dir pdir g ≠ ""
  ∧ ∀ p, filepath_Clean (filepath_Clean p) = filepath_Clean p.
Proof.
  assert (Hclean : ∃ p, group_dir pdir g = filepath_Clean p).
  { unfold group_dir, filepath_Join. case_decide; [|by eexists].
    rewrite decide_False by (by destruct (Sprintf_p_plain g) as (_ & ? & _)).
    by eexists. }
  destruct Hclean as [p ->]. split_and!.
  - apply filepath_Clean_idempotent.
  - apply filepath_Clean_nonempty.
  - apply filepath_Clean_idempotent.
Qed.

(** X7. Posting directories that clean to the same path give every group
    the same directory: the directory of a group under [pdir] is its
    directory under [filepath.Clean(pdir)], and a separator at the end of
    a non-empty [pdir] makes no difference. *)
Theorem group_dir_of_cleaned_root (pdir : string) (g : Z) :
  group_dir (filepath_Clean pdir) g = group_dir pdir g
  ∧ (pdir ≠ "" → group_dir (pdir +:+ "/") g = group_dir pdir g).
Proof.
  unfold group_dir. rewrite !filepath_Join_plain by apply Sprintf_p_plain.
  split; [by rewrite join_base_Clean|].
  intros Hp. by rewrite join_base_trailing_sep.
Qed.

(** X8. When two posting directories give some group of the one and some
    group of the other the same directory, the two groups are the same
    group and the two posting directories give every group the same
    directory: the directories of two roots coincide throughout or are
    disjoint. *)
Theorem group_dirs_of_two_roots d1 d2 g1 g2 :
  group_dir d1 g1 = group_dir d2 g2 →
  g1 = g2 ∧ ∀ h, group_dir d1 h = group_dir d2 h.
Proof.
  unfold group_dir. rewrite !filepath_Join_plain by apply Sprintf_p_plain.
  intros Heq.
  assert (Hname : Sprintf_p g1 = Sprintf_p g2).
  { pose proof (last_path_elem d1 (Sprintf_p g1)
                  (proj1 (Sprintf_p_plain g1))) as H1.
    pose proof (last_path_elem d2 (Sprintf_p g2)
                  (proj1 (Sprintf_p_plain g2))) as H2.
    rewrite Heq in H1. congruence. }
  split; [by apply Sprintf_p_inj|].
  rewrite Hname in Heq. apply append_cancel_r in Heq.
  intros h. rewrite !filepath_Join_plain by apply Sprintf_p_plain.
  by rewrite Heq.
Qed.

(** X8, witness: [/data] and [/data/x/..]. *)
Lemma group_dirs_of_two_roots_witness :
  group_dir "/data" 1 = group_dir "/data/x/.." 1
  ∧ ∀ h, group_dir "/data" h = group_dir "/data/x/.." h.
Proof.
  assert (Heq : group_dir "/data" 1 = group_dir "/data/x/.." 1) by (by vm_compute).
  split; [exact Heq|].
  exact (proj2 (group_dirs_of_two_roots "/data" "/data/x/.." 1 1 Heq)).
Defined.

(** ** The callback under composition *)

Section CallbackComposition.
Context {Stream Store : Type} `{!Collaborators Stream Store}.

(** The lines one invocation prints. *)
Lemma func1_stdout pdir since (r : Stream) g (w : World Store) :
  new_stdout w (runRestore_func1 pdir since r g w).2
  = ("--- Restoring groupId: " +:+ pretty g +:+ ", since: "
       +:+ pretty since +:+ nl)
    :: match open_store (restoreOptions pdir g) (disk w !! group_dir pdir g) with
       | Opened _ => ["--- Creating new db: " +:+ group_dir pdir g +:+ nl]
       | OpenFailed _ _ => []
       end.
Proof.
  unfold new_stdout, runRestore_func1, bind, Print, OpenManaged, db_Load,
    db_Close, ret.
  change (Dir (restoreOptions pdir g)) with (group_dir pdir g). cbn.
  destruct (open_store _ _) as [st | msg lb]; cbn.
  - rewrite lookup_insert_eq. destruct (load_stream st r) as [st' e]. cbn.
    by rewrite <- app_assoc, drop_app_length.
  - by rewrite drop_app_length.
Qed.

(** X1. The watermark reaches the callback only to be printed: two
    invocations that differ in [since] alone return the same result,
    leave the same directories, make the same engine calls, and print the
    same lines after the first one.  The callback does no filtering by
    timestamp. *)
Theorem callback_ignores_watermark pdir s1 s2 (r : Stream) g (w : World Store) :
  let a := runRestore_func1 pdir s1 r g w in
  let b := runRestore_func1 pdir s2 r g w in
  a.1 = b.1 ∧ disk a.2 = disk b.2 ∧ events a.2 = events b.2
  ∧ open_dbs a.2 = open_dbs b.2 ∧ stderr a.2 = stderr b.2
  ∧ tail (new_stdout w a.2) = tail (new_stdout w b.2).
Proof.
  intros a b. subst a b.
  destruct (func1_effect pdir s1 r g w) as (He1 & Ho1 & _ & H1).
  destruct (func1_effect pdir s2 r g w) as (He2 & Ho2 & _ & H2).
  rewrite !func1_stdout. cbn [tail].
  destruct (open_store _ _) as [st | msg lb];
    destruct H1 as (-> & -> & ->); destruct H2 as (-> & -> & ->);
    by rewrite He1, He2, Ho1, Ho2.
Qed.

(** X2. What one invocation touches: no directory other than the
    group's, nothing on stderr; it only appends to the engine calls, all
    of them on the group's directory, and to the output, where it writes
    the [Restoring] line and then, exactly when badger opened the
    directory, the [Creating new db] line with the group's directory,
    whether or not the directory existed before. *)
Theorem callback_footprint pdir since (r : Stream) g (w : World Store) :
  let dir := group_dir pdir g in
  let w' := (runRestore_func1 pdir since r g w).2 in
  (∀ p, p ≠ dir → disk w' !! p = disk w !! p)
  ∧ stderr w' = stderr w
  ∧ events w `prefix_of` events w'
  ∧ Forall (λ e, event_dir e = dir) (new_events w w')
  ∧ stdout w `prefix_of` stdout w'
  ∧ new_stdout w w'
    = ("--- Restoring groupId: " +:+ pretty g +:+ ", since: "
         +:+ pretty since +:+ nl)
      :: match open_store (restoreOptions pdir g) (disk w !! dir) with
         | Opened _ => ["--- Creating new db: " +:+ dir +:+ nl]
         | OpenFailed _ _ => []
         end.
Proof.
  intros dir w'. subst dir w'.
  destruct (func1_trace pdir since r g w)
    as (_ & Herr & (out & Hout & _) & (evs & Hevs & Fevs)).
  split_and!.
  - intros p Hp. by apply func1_frame.
  - done.
  - by exists evs.
  - by rewrite (new_events_app _ _ _ Hevs).
  - by exists out.
  - apply func1_stdout.
Qed.

(** X3. Invocations for two different groups commute: in either order
    each returns what it returns when run first, and the directories,
    the open instances and stderr end up the same. *)
Theorem callbacks_of_distinct_groups_commute pdir since (r1 r2 : Stream)
    g1 g2 (w : World Store) :
  g1 ≠ g2 →
  let a := runRestore_func1 pdir since r1 g1 in
  let b := runRestore_func1 pdir since r2 g2 in
  let ab := b (a w).2 in
  let ba := a (b w).2 in
  (a w).1 = ba.1 ∧ ab.1 = (b w).1
  ∧ disk ab.2 = disk ba.2
  ∧ open_dbs ab.2 = open_dbs ba.2 ∧ stderr ab.2 = stderr ba.2.
Proof.
  intros Hne a b ab ba. subst ab ba a b.
  assert (Hdir : group_dir pdir g1 ≠ group_dir pdir g2)
    by by intros ?%group_dir_inj.
  pose proof (func1_frame pdir since r1 g1 w _ (not_eq_sym Hdir)) as Hfa.
  pose proof (func1_frame pdir since r2 g2 w _ Hdir) as Hfb.
  destruct (func1_local pdir pdir since r1 g1
              (runRestore_func1 pdir since r2 g2 w).2 w
              (λ _, eq_refl) Hfb) as [Hra Hda].
  destruct (func1_local pdir pdir since r2 g2
              (runRestore_func1 pdir since r1 g1 w).2 w
              (λ _, eq_refl) Hfa) as [Hrb Hdb].
  split_and!; [done | done | | |].
  - apply map_eq. intros p.
    destruct (decide (p = group_dir pdir g1)) as [-> | Hp1].
    { rewrite (func1_frame pdir since r2 g2) by done. by rewrite Hda. }
    destruct (decide (p = group_dir pdir g2)) as [-> | Hp2].
    { rewrite Hdb. by rewrite (func1_frame pdir since r1 g1) by done. }
    by rewrite !func1_frame by done.
  - destruct (func1_effect pdir since r2 g2 (runRestore_func1 pdir since r1 g1 w).2)
      as (_ & -> & _).
    destruct (func1_effect pdir since r1 g1 (runRestore_func1 pdir since r2 g2 w).2)
      as (_ & -> & _).
    destruct (func1_effect pdir since r1 g1 w) as (_ & -> & _).
    by destruct (func1_effect pdir since r2 g2 w) as (_ & -> & _).
  - destruct (func1_effect pdir since r2 g2 (runRestore_func1 pdir since r1 g1 w).2)
      as (-> & _).
    destruct (func1_effect pdir since r1 g1 (runRestore_func1 pdir since r2 g2 w).2)
      as (-> & _).
    destruct (func1_effect pdir since r1 g1 w) as (-> & _).
    by destruct (func1_effect pdir since r2 g2 w) as (-> & _).
Qed.

(** X4. Two invocations for one group, one after the other: the second
    opens what the first closed and loads its stream onto that store,
    also when the first load failed; the callback itself never stops a
    chain.  Afterwards every instance is closed and the engine calls are
    open, load, close twice over. *)
Theorem second_object_loads_onto_first pdir since (r1 r2 : Stream) g
    (w : World Store) st1 st2 :
  let bo := restoreOptions pdir g in
  let dir := group_dir pdir g in
  open_store bo (disk w !! dir) = Opened st1 →
  open_store bo (Some (close_store (load_stream st1 r1).1)) = Opened st2 →
  let first := runRestore_func1 pdir since r1 g w in
  let second := runRestore_func1 pdir since r2 g first.2 in
  first.1 = EngineError <$> (load_stream st1 r1).2
  ∧ second.1 = EngineError <$> (load_stream st2 r2).2
  ∧ disk second.2 !! dir = Some (close_store (load_stream st2 r2).1)
  ∧ open_dbs second.2 = open_dbs w
  ∧ new_events w second.2
    = [EvOpen bo true; EvLoad dir (bool_decide ((load_stream st1 r1).2 = None));
       EvClose dir;
       EvOpen bo true; EvLoad dir (bool_decide ((load_stream st2 r2).2 = None));
       EvClose dir].
Proof.
  intros bo dir H1 H2 first second. subst first second.
  destruct (func1_effect pdir since r1 g w) as (_ & Ho1 & _ & E1).
  fold bo dir in E1. rewrite H1 in E1. destruct E1 as (Hr1 & Hev1 & Hd1).
  destruct (func1_effect pdir since r2 g (runRestore_func1 pdir since r1 g w).2)
    as (_ & Ho2 & _ & E2).
  fold bo dir in E2. rewrite Hd1, lookup_insert_eq, H2 in E2.
  destruct E2 as (Hr2 & Hev2 & Hd2).
  split_and!; [done | done | | congruence |].
  - by rewrite Hd2, lookup_insert_eq.
  - apply new_events_app. rewrite Hev2, Hev1. by rewrite <- app_assoc.
Qed.

(** Any sequence of invocations, seen from one group. *)
Lemma invoke_all_project pdir since g (calls : list (Stream * Z)) :
  ∀ w1 w2 : World Store,
  disk w1 !! group_dir pdir g = disk w2 !! group_dir pdir g →
  let fn := runRestore_func1 pdir since in
  let full := invoke_all fn calls w1 in
  let own := invoke_all fn (filter (λ c, c.2 = g) calls) w2 in
  filter (λ x, x.1 = g) full.1 = own.1
  ∧ disk full.2 !! group_dir pdir g = disk own.2 !! group_dir pdir g.
Proof.
  induction calls as [| [r h] calls IH]; intros w1 w2 Hdisk fn; [done|].
  rewrite filter_cons. cbn [snd].
  destruct (decide (h = g)) as [-> | Hne].
  - cbn [invoke_all]. unfold bind.
    destruct (func1_local pdir pdir since r g w1 w2 (λ _, eq_refl) Hdisk)
      as [Hres Hd]. fold fn in Hres, Hd.
    destruct (fn r g w1) as [e1 w1'], (fn r g w2) as [e2 w2'].
    cbn [fst snd] in *. subst e2.
    specialize (IH w1' w2' Hd). cbn zeta in IH. fold fn in IH.
    destruct (invoke_all fn calls w1') as [res1 w1''].
    destruct (invoke_all fn (filter _ calls) w2') as [res2 w2''].
    cbn [fst snd ret] in *. destruct IH as [IHr IHd].
    rewrite filter_cons, decide_True by done. by rewrite IHr.
  - cbn [invoke_all]. unfold bind.
    assert (Hf : disk (fn r h w1).2 !! group_dir pdir g
                 = disk w2 !! group_dir pdir g).
    { unfold fn. rewrite func1_frame; [done|]. by intros ?%group_dir_inj. }
    destruct (fn r h w1) as [e1 w1']. cbn [snd] in Hf.
    specialize (IH w1' w2 Hf). cbn zeta in IH. fold fn in IH.
    destruct (invoke_all fn calls w1') as [res1 w1''].
    cbn [fst snd ret] in *. destruct IH as [IHr IHd].
    rewrite filter_cons, decide_False by done. done.
Qed.

(** X5. In any sequence of invocations, the results for a group and the
    store left in its directory are those of running the invocations of
    that group alone; a group that is not invoked keeps its directory as
    it was; and no instance is left open. *)
Theorem invocations_project_to_group pdir since g (calls : list (Stream * Z))
    (w : World Store) :
  let fn := runRestore_func1 pdir since in
  let full := invoke_all fn calls w in
  let own := invoke_all fn (filter (λ c, c.2 = g) calls) w in
  filter (λ x, x.1 = g) full.1 = own.1
  ∧ disk full.2 !! group_dir pdir g = disk own.2 !! group_dir pdir g
  ∧ (g ∉ calls.*2 → disk full.2 !! group_dir pdir g = disk w !! group_dir pdir g)
  ∧ open_dbs full.2 = open_dbs w.
Proof.
  intros fn full own. subst full own.
  destruct (invoke_all_project pdir since g calls w w eq_refl) as [Hr Hd].
  fold fn in Hr, Hd. split_and!; [done | done | |].
  - intros Hnot. rewrite Hd.
    assert (filter (λ c : Stream * Z, c.2 = g) calls = []) as ->; [|done].
    clear -Hnot. induction calls as [| [r h] calls IH]; [done|].
    rewrite filter_cons, decide_False.
    + apply IH. intros Hin. apply Hnot. cbn. by right.
    + cbn. intros ->. apply Hnot. cbn. by left.
  - clear. revert w. induction calls as [| [r h] calls IH]; intros w; [done|].
    cbn [invoke_all]. unfold bind.
    destruct (func1_effect pdir since r h w) as (_ & Ho & _). fold fn in Ho.
    destruct (fn r h w) as [e w1]. cbn [snd] in Ho.
    specialize (IH w1). destruct (invoke_all fn calls w1) as [res w2].
    cbn [snd ret] in *. congruence.
Qed.
End CallbackComposition.


(** X3, witness: groups 1 and 2 of the sample location. *)
Lemma callbacks_of_distinct_groups_commute_witness :
  (1 ≠ 2)%Z
  ∧ disk (runRestore_func1 "/data" 0 [Some ("carol", 12, "c0")] 2
            (runRestore_func1 "/data" 0 [Some ("alice", 7, "a0")] 1
               empty_world).2).2
    = disk (runRestore_func1 "/data" 0 [Some ("alice", 7, "a0")] 1
              (runRestore_func1 "/data" 0 [Some ("carol", 12, "c0")] 2
                 empty_world).2).2.
Proof.
  assert (Hne : (1 ≠ 2)%Z) by done.
  split; [exact Hne|].
  exact (proj1 (proj2 (proj2 (callbacks_of_distinct_groups_commute "/data" 0
           [Some ("alice", 7, "a0")] [Some ("carol", 12, "c0")] 1 2
           empty_world Hne)))).
Defined.

(** X4, witness: the first object of group 1 is cut short, the second is
    loaded onto what was read of it. *)
Lemma second_object_loads_onto_first_witness :
  let bo := restoreOptions "/data" 1 in
  let r1 := [Some ("alice", 7, "a0"); None] in
  let r2 := [Some ("alice", 21, "a1")] in
  let first := runRestore_func1 "/data" 0 r1 1 empty_world in
  let second := runRestore_func1 "/data" 0 r2 1 first.2 in
  open_store bo (disk empty_world !! group_dir "/data" 1) = Opened []
  ∧ open_store bo (Some (close_store (load_stream [] r1).1))
    = Opened [("alice", 7, "a0")]
  ∧ first.1 = Some (EngineError "unexpected EOF")
  ∧ second.1 = None
  ∧ disk second.2 !! group_dir "/data" 1
    = Some [("alice", 7, "a0"); ("alice", 21, "a1")].
Proof.
  intros bo r1 r2 first second.
  assert (H1 : open_store bo (disk empty_world !! group_dir "/data" 1)
               = Opened []) by done.
  assert (H2 : open_store bo (Some (close_store (load_stream [] r1).1))
               = Opened [("alice", 7, "a0")]) by done.
  split; [exact H1|]. split; [exact H2|].
  destruct (second_object_loads_onto_first "/data" 0 r1 r2 1 empty_world
              [] [("alice", 7, "a0")] H1 H2) as (Hf & Hs & Hd & _).
  split; [exact Hf|]. split; [exact Hs | exact Hd].
Defined.
